(** * jsonutil: the JSON path engine of go-toolkit

    A shallow embedding of the path functions of package [jsonutil]
    ([parsePath], [parsePart], [GetValueByPath], [HasPath],
    [SetValueByPath], [setValueAtPath], [FindPaths], [GetAllPaths] and
    their helpers), of [ConvertValuesToString] and of the accessors
    [GetStringByPath] and [GetBoolByPath], together with the properties
    the specification states about them and further properties read off
    the code.

    Conventions of the embedding.
    - A decoded JSON document is a tree of [value]s.  A Go map is a
      [gmap string value], a slice is a [list value].  The maps of a
      decoded document are not nil.  A nil map reads as the map without
      entries and panics when it is assigned into; it has no constructor
      of its own, and what is stated of an assignment into a map that
      could be nil is stated of a map that has an entry.
    - A Go string is a [string]: a sequence of bytes, valid UTF-8 or not.
      [parsePath] ranges over the runes of the path and writes runes
      back.  [runes] is the decoder of [range]; a rune is kept as its
      UTF-8 encoding; a byte that is not part of a valid sequence is the
      rune [U+FFFD], which is written back as three bytes.
    - A [range] over a map visits the entries in an order the language
      leaves open and that changes from one [range] to the next.
      [findPathsRecursive] and [getAllPathsRecursive] visit them in the
      order of [map_fold], one of the orders a run may take: what is
      stated of the paths of two calls is stated up to their order.
    - A Go [(T, error)] result is a [result T]; the third constructor is a
      run-time panic (a slice expression out of range in [parsePart]).
    - Assignments into a map or a slice reached through the tree are
      assignments into the tree itself: [SetValueByPath] returns the tree
      after the call next to its error result. *)

From Stdlib Require Import ZArith Ascii String Floats.SpecFloat.
From stdpp Require Import gmap strings list fin_maps.

Set Warnings "-register-all".
Local Open Scope Z_scope.

(** ** Values *)

(** [encoding/json] decodes every number into a [float64]. *)
Definition float64 : Type := spec_float.

(** The dynamic types a decoded document is made of: [nil], [bool],
    [float64], [string], [map[string]interface{}] and [[]interface{}]. *)
Inductive value : Type :=
| VNil
| VBool (b : bool)
| VFloat64 (f : float64)
| VString (s : string)
| VMap (m : gmap string value)
| VSlice (l : list value).

(** ** Errors and results *)

(** One constructor per [fmt.Errorf] of the package, with the data the
    message is formatted from. *)
Inductive error : Type :=
| ErrValueIsNil (part : string) (i : nat)
| ErrArrayIndexOnMap (part : string) (i : nat)
| ErrKeyNotFound (part : string) (i : nat) (key : string)
| ErrIndexOutOfRange (part : string) (i : nat) (index : Z)
| ErrKeyNotFoundInArray (part : string) (i : nat) (key : string)
| ErrCannotTraverse (part : string) (i : nat) (current : value)
| ErrPathEmpty
| ErrInvalidPath
| ErrParentPath (parentPath : string) (err : error)
| ErrSetArrayIndexOnMap
| ErrSetIndexOutOfRange (index : Z)
| ErrSetKeyOnArray (key : string)
| ErrSetOnType (data : value).

Inductive result (A : Type) : Type :=
| Ok (a : A)
| Err (e : error)
| Panic.
Arguments Ok {A} a.
Arguments Err {A} e.
Arguments Panic {A}.

#[global] Instance result_bind : MBind result := fun A B k r =>
  match r with
  | Ok a => k a
  | Err e => Err e
  | Panic => Panic
  end.

(** ** The functions of [strings] and [strconv] the package calls *)

Definition isChar (c d : ascii) : bool := Ascii.eqb c d.

(** [strings.HasPrefix(s, "[")]. *)
Definition HasPrefix (s : string) (c : ascii) : bool :=
  match s with
  | String d _ => isChar d c
  | EmptyString => false
  end.

(** [strings.HasSuffix(s, "]")]. *)
Fixpoint HasSuffix (s : string) (c : ascii) : bool :=
  match s with
  | EmptyString => false
  | String d EmptyString => isChar d c
  | String _ r => HasSuffix r c
  end.

(** [strings.Index(s, "[")]: the position of the first occurrence, [None]
    for Go's -1. *)
Fixpoint Index (s : string) (c : ascii) : option nat :=
  match s with
  | EmptyString => None
  | String d r => if isChar d c then Some O else S <$> Index r c
  end.

(** The slice expression [s[lo:hi]] for [lo <= hi <= len(s)]. *)
Definition slice (s : string) (lo hi : nat) : string :=
  String.substring lo (hi - lo) s.

Definition minInt : Z := - 2 ^ 63.
Definition maxInt : Z := 2 ^ 63 - 1.

Definition digitValue (c : ascii) : option Z :=
  let n := Z.of_N (N_of_ascii c) - 48 in
  if (0 <=? n) && (n <=? 9) then Some n else None.

Fixpoint parseDigits (s : string) (acc : Z) : option Z :=
  match s with
  | EmptyString => Some acc
  | String c r =>
      match digitValue c with
      | Some d => parseDigits r (acc * 10 + d)
      | None => None
      end
  end.

(** [strconv.Atoi] on a 64-bit platform: an optional sign, then one or
    more decimal digits, the value within the range of [int].  [None] is a
    non-nil error. *)
Definition Atoi (s : string) : option Z :=
  let '(neg, body) :=
    match s with
    | String "-" r => (true, r)
    | String "+" r => (false, r)
    | _ => (false, s)
    end in
  match body with
  | EmptyString => None
  | _ =>
      match parseDigits body 0 with
      | Some n =>
          let v := if neg : bool then - n else n in
          if (minInt <=? v) && (v <=? maxInt) then Some v else None
      | None => None
      end
  end.

Definition digitChar (d : Z) : ascii := ascii_of_N (Z.to_N (48 + d)).

Fixpoint formatDigits (fuel : nat) (n : Z) (acc : string) : string :=
  match fuel with
  | O => acc
  | S fuel' =>
      let acc' := String (digitChar (n mod 10)) acc in
      if n / 10 =? 0 then acc' else formatDigits fuel' (n / 10) acc'
  end.

(** The verb [%d] of [fmt.Sprintf] on an [int]. *)
Definition Itoa (n : Z) : string :=
  if n <? 0 then String "-" (formatDigits (Z.to_nat (- n)) (- n) "")
  else formatDigits (S (Z.to_nat n)) n "".

(** ** UTF-8 *)

(** A rune, kept as the bytes [WriteRune] writes for it: its UTF-8
    encoding.  Two runes are equal exactly when their encodings are. *)
Definition rune : Type := string.

Definition inRange (b : ascii) (lo hi : N) : bool :=
  ((lo <=? N_of_ascii b) && (N_of_ascii b <=? hi))%N.

(** A byte below [utf8.RuneSelf]: a rune of its own. *)
Definition isASCII (b : ascii) : bool := (N_of_ascii b <? 128)%N.

(** A continuation byte, [0x80] to [0xBF]. *)
Definition isContinuation (b : ascii) : bool := inRange b 128 191.

(** The length of the sequence a first byte announces (the table [first]
    of package [utf8]): 2 from [0xC2] to [0xDF], 3 from [0xE0] to [0xEF],
    4 from [0xF0] to [0xF4]; 0 where no sequence starts with the byte. *)
Definition sequenceSize (b0 : ascii) : nat :=
  if inRange b0 194 223 then 2
  else if inRange b0 224 239 then 3
  else if inRange b0 240 244 then 4
  else 0.

(** The second bytes accepted after a first byte (the table
    [acceptRanges]): no overlong form, no surrogate, nothing above
    [U+10FFFF]. *)
Definition acceptsSecond (b0 b1 : ascii) : bool :=
  if inRange b0 224 224 then inRange b1 160 191
  else if inRange b0 237 237 then inRange b1 128 159
  else if inRange b0 240 240 then inRange b1 144 191
  else if inRange b0 244 244 then inRange b1 128 143
  else inRange b1 128 191.

(** [utf8.RuneError], [U+FFFD]: the bytes [EF BF BD]. *)
Definition RuneError : rune :=
  String (ascii_of_N 239) (String (ascii_of_N 191) (String (ascii_of_N 189) "")).

(** The runes a [for _, char := range s] yields.  A byte that does not
    start a valid sequence, or starts one that the string cuts short or
    breaks, is one iteration of its own with [char] the rune
    [RuneError]. *)
Fixpoint runes (s : string) : list rune :=
  match s with
  | EmptyString => []
  | String b0 r0 =>
      if isASCII b0 then String b0 "" :: runes r0
      else
        let invalid := RuneError :: runes r0 in
        match sequenceSize b0, r0 with
        | 2%nat, String b1 r1 =>
            if acceptsSecond b0 b1
            then String b0 (String b1 "") :: runes r1
            else invalid
        | 3%nat, String b1 (String b2 r2) =>
            if acceptsSecond b0 b1 && isContinuation b2
            then String b0 (String b1 (String b2 "")) :: runes r2
            else invalid
        | 4%nat, String b1 (String b2 (String b3 r3)) =>
            if acceptsSecond b0 b1 && isContinuation b2 && isContinuation b3
            then String b0 (String b1 (String b2 (String b3 ""))) :: runes r3
            else invalid
        | _, _ => invalid
        end
  end.

(** What a sequence of [WriteRune] calls writes. *)
Fixpoint writeRunes (rs : list rune) : string :=
  match rs with
  | [] => ""
  | r :: rs => r +:+ writeRunes rs
  end.

(** What ranging over a string and writing each rune back makes of it:
    the valid sequences as they are, [EF BF BD] for every other byte. *)
Definition toValid (s : string) : string := writeRunes (runes s).

(** [utf8.ValidString]: every byte of [s] is part of a valid sequence,
    that is, the runes of [s] written back are [s] itself (a byte outside
    a valid sequence comes back as three). *)
Definition ValidString (s : string) : bool := String.eqb (toValid s) s.

(** ** Tokenizer *)

(** The local variables of [parsePath]. *)
Record scanner : Type := Scanner {
  parts : list string;
  current : string;
  inBrackets : bool
}.

(** [char == c] for an ASCII character [c]. *)
Definition isRune (char : rune) (c : ascii) : bool :=
  String.eqb char (String c "").

(** [current.WriteRune(char)]. *)
Definition writeRune (current : string) (char : rune) : string :=
  current +:+ char.

(** [if current.Len() > 0 { parts = append(parts, current.String()) }] *)
Definition flush (parts : list string) (current : string) : list string :=
  match current with
  | EmptyString => parts
  | _ => parts ++ [current]
  end.

(** One iteration of the loop of [parsePath]. *)
Definition scanRune (st : scanner) (char : rune) : scanner :=
  if isRune char "." then
    if negb (inBrackets st)
    then Scanner (flush (parts st) (current st)) "" false
    else Scanner (parts st) (writeRune (current st) char) (inBrackets st)
  else if isRune char "[" then
    Scanner (flush (parts st) (current st)) "" true
  else if isRune char "]" then
    if inBrackets st
    then Scanner (parts st ++ ["[" +:+ current st +:+ "]"]) "" false
    else st
  else Scanner (parts st) (writeRune (current st) char) (inBrackets st).

(** The loop [for _, char := range path] from the state [st]. *)
Definition scanRunes (st : scanner) (path : string) : scanner :=
  foldl scanRune st (runes path).

Definition parsePath (path : string) : list string :=
  let st := scanRunes (Scanner [] "" false) path in
  flush (parts st) (current st).

(** ** Segment parser *)

(** [parsePart] returns [(key, index, isArray)].  In its second branch the
    slice expression [part[idx+1 : strings.Index(part, "]")]] panics when
    no ["]"] follows the first ["["]. *)
Definition parsePart (part : string) : result (string * Z * bool) :=
  if HasPrefix part "[" && HasSuffix part "]" then
    let indexStr := slice part 1 (String.length part - 1)%nat in
    match Atoi indexStr with
    | None => Ok ("", -1, false)
    | Some idx => Ok ("", idx, true)
    end
  else
    match Index part "[" with
    | Some idx =>
        let key := slice part 0 idx in
        match Index part "]" with
        | Some close =>
            if (idx + 1 <=? close)%nat then
              let indexStr := slice part (idx + 1) close in
              match Atoi indexStr with
              | None => Ok (key, -1, false)
              | Some n => Ok (key, n, true)
              end
            else Panic
        | None => Panic
        end
    | None => Ok (part, -1, false)
    end.

(** ** Navigator *)

(** Which child a step of the traversal enters. *)
Inductive selector : Type :=
| AtKey (key : string)
| AtIndex (index : nat).

(** The inner loop of [GetValueByPath] on a slice and a key: the first
    element that is a map holding [key], with its position. *)
Fixpoint findInElements (v : list value) (key : string) (j : nat)
  : option (nat * value) :=
  match v with
  | [] => None
  | item :: rest =>
      match item with
      | VMap itemMap =>
          match itemMap !! key with
          | Some val => Some (j, val)
          | None => findInElements rest key (S j)
          end
      | _ => findInElements rest key (S j)
      end
  end.

(** The loop of [GetValueByPath] over [parts], from position [i].  Next to
    the value it ends on, it records the children it entered: the place of
    that value in the tree. *)
Fixpoint traverse (current : value) (parts : list string) (i : nat)
  : result (list selector * value) :=
  match parts with
  | [] => Ok ([], current)
  | part :: rest =>
      match current with
      | VNil => Err (ErrValueIsNil part i)
      | VMap v =>
          '(key, _, isArray) ← parsePart part;
          if isArray : bool then Err (ErrArrayIndexOnMap part i)
          else match v !! key with
               | Some next =>
                   '(place, found) ← traverse next rest (S i);
                   Ok (AtKey key :: place, found)
               | None => Err (ErrKeyNotFound part i key)
               end
      | VSlice v =>
          '(key, index, isArray) ← parsePart part;
          if isArray : bool then
            if (index <? 0) || (index >=? Z.of_nat (length v))
            then Err (ErrIndexOutOfRange part i index)
            else match v !! Z.to_nat index with
                 | Some next =>
                     '(place, found) ← traverse next rest (S i);
                     Ok (AtIndex (Z.to_nat index) :: place, found)
                 | None => Panic
                 end
          else match findInElements v key 0 with
               | Some (j, next) =>
                   '(place, found) ← traverse next rest (S i);
                   Ok (AtIndex j :: AtKey key :: place, found)
               | None => Err (ErrKeyNotFoundInArray part i key)
               end
      | _ => Err (ErrCannotTraverse part i current)
      end
  end.

Definition navigate (data : value) (path : string)
  : result (list selector * value) :=
  if decide (path = "") then Ok ([], data)
  else traverse data (parsePath path) 0.

Definition GetValueByPath (data : value) (path : string) : result value :=
  '(_, found) ← navigate data path; Ok found.

(** [HasPath] returns [err == nil]; it panics where [GetValueByPath] does. *)
Definition HasPath (data : value) (path : string) : result bool :=
  match GetValueByPath data path with
  | Ok _ => Ok true
  | Err _ => Ok false
  | Panic => Panic
  end.

(** ** Mutator *)

(** [setValueAtPath] assigns into the container it is given; the first
    component is that container after the call.  [VMap v] is a map that
    is not nil: [v[key] = value] panics on a nil map. *)
Definition setValueAtPath (data : value) (part : string) (val : value)
  : value * result unit :=
  match parsePart part with
  | Ok (key, index, isArray) =>
      match data with
      | VMap v =>
          if isArray : bool then (data, Err ErrSetArrayIndexOnMap)
          else (VMap (<[key := val]> v), Ok ())
      | VSlice v =>
          if isArray : bool then
            if (index <? 0) || (index >=? Z.of_nat (length v))
            then (data, Err (ErrSetIndexOutOfRange index))
            else (VSlice (<[Z.to_nat index := val]> v), Ok ())
          else (data, Err (ErrSetKeyOnArray key))
      | _ => (data, Err (ErrSetOnType data))
      end
  | Err e => (data, Err e)
  | Panic => (data, Panic)
  end.

(** The tree with the node at [place] replaced by [new]: what an
    assignment into the container found at [place] does to the tree that
    holds it. *)
Fixpoint assign (data : value) (place : list selector) (new : value) : value :=
  match place with
  | [] => new
  | AtKey key :: rest =>
      match data with
      | VMap v =>
          match v !! key with
          | Some child => VMap (<[key := assign child rest new]> v)
          | None => data
          end
      | _ => data
      end
  | AtIndex j :: rest =>
      match data with
      | VSlice v =>
          match v !! j with
          | Some child => VSlice (<[j := assign child rest new]> v)
          | None => data
          end
      | _ => data
      end
  end.

(** [strings.Join(parts, ".")]. *)
Definition Join (parts : list string) : string := String.concat "." parts.

(** [SetValueByPath] returns the tree after the call and the error. *)
Definition SetValueByPath (data : value) (path : string) (val : value)
  : value * result unit :=
  if decide (path = "") then (data, Err ErrPathEmpty)
  else
    match parsePath path with
    | [] => (data, Err ErrInvalidPath)
    | [part] => setValueAtPath data part val
    | parts =>
        let parentPath := Join (removelast parts) in
        let lastPart := List.last parts "" in
        match navigate data parentPath with
        | Ok (place, parent) =>
            let '(parent', r) := setValueAtPath parent lastPart val in
            (assign data place parent', r)
        | Err e => (data, Err (ErrParentPath parentPath e))
        | Panic => (data, Panic)
        end
    end.

(** ** Finder *)

Record FindOptions : Type := {
  KeyPattern : string;
  ValuePattern : string;
  ExactValue : string;
  ValueType : string
}.

(** The zero value [FindOptions{}]. *)
Definition noOptions : FindOptions :=
  {| KeyPattern := ""; ValuePattern := ""; ExactValue := ""; ValueType := "" |}.

(** The standard-library calls of the finder, left abstract:
    [regexp.MatchString(pattern, s)] ([false] when the pattern does not
    compile: the error is discarded), [strconv.FormatFloat(v, 'f', -1, 64)]
    and [json.Marshal(v)]. *)
Class Library : Type := {
  MatchString : string -> string -> bool;
  FormatFloat : float64 -> string;
  Marshal : value -> string
}.

Definition getValueType (val : value) : string :=
  match val with
  | VNil => "null"
  | VString _ => "string"
  | VFloat64 _ => "number"
  | VBool _ => "bool"
  | VMap _ => "object"
  | VSlice _ => "array"
  end.

Definition FormatBool (b : bool) : string := if b then "true" else "false".

Section Finder.
Context {lib : Library}.

Definition convertToString (val : value) : string :=
  match val with
  | VNil => ""
  | VString v => v
  | VFloat64 v => FormatFloat v
  | VBool v => FormatBool v
  | _ => Marshal val
  end.

Definition nonEmpty (s : string) : bool := negb (String.eqb s "").

(** [options] is a pointer: [None] is [nil]. *)
Definition matchesOptions (val : value) (key : string)
    (options : option FindOptions) : bool :=
  match options with
  | None => false
  | Some options =>
      if nonEmpty (KeyPattern options) && nonEmpty key
         && negb (MatchString (KeyPattern options) key)
      then false
      else if nonEmpty (ValueType options)
              && negb (String.eqb (getValueType val) (ValueType options))
      then false
      else if nonEmpty (ExactValue options)
              && negb (String.eqb (convertToString val) (ExactValue options))
      then false
      else if nonEmpty (ValuePattern options)
              && negb (MatchString (ValuePattern options) (convertToString val))
      then false
      else true
  end.

(** [newPath := currentPath; if newPath != "" { newPath += "." };
    newPath += key] *)
Definition keyPath (currentPath key : string) : string :=
  (if nonEmpty currentPath then currentPath +:+ "." else currentPath) +:+ key.

(** [fmt.Sprintf("%s[%d]", currentPath, i)] *)
Definition indexPath (currentPath : string) (i : nat) : string :=
  currentPath +:+ "[" +:+ Itoa (Z.of_nat i) +:+ "]".

(** [findPathsRecursive] appends to [*paths] and returns an error; the
    model returns the list after the call and the error.  A [range] over a
    map visits the entries in an order that is left open and changes from
    one [range] to the next; the model visits them in the order of
    [map_fold], which is one such order.  An entry reached after an error
    has been returned is not visited. *)
Fixpoint findPathsRecursive (data : value) (currentPath : string)
    (options : option FindOptions) (paths : list string)
  : list string * option error :=
  match data with
  | VMap v =>
      map_fold (fun key val acc =>
        match acc with
        | (paths, Some err) => (paths, Some err)
        | (paths, None) =>
            let newPath := keyPath currentPath key in
            let paths :=
              if matchesOptions val key options
              then paths ++ [newPath] else paths in
            findPathsRecursive val newPath options paths
        end) (paths, None) v
  | VSlice v =>
      (fix loop (v : list value) (i : nat) (paths : list string) :=
         match v with
         | [] => (paths, None)
         | val :: rest =>
             let newPath := indexPath currentPath i in
             let paths :=
               if matchesOptions val "" options
               then paths ++ [newPath] else paths in
             match findPathsRecursive val newPath options paths with
             | (paths, Some err) => (paths, Some err)
             | (paths, None) => loop rest (S i) paths
             end
         end) v O paths
  | _ => (paths, None)
  end.

Definition FindPaths (data : value) (options : option FindOptions)
  : list string * option error :=
  let options :=
    match options with
    | None => Some noOptions
    | Some _ => options
    end in
  findPathsRecursive data "" options [].

End Finder.

(** [getAllPathsRecursive] appends to [*paths]; the entries of a map are
    visited in the order of [map_fold], as in [findPathsRecursive]. *)
Fixpoint getAllPathsRecursive (data : value) (currentPath : string)
    (paths : list string) : list string :=
  match data with
  | VMap v =>
      map_fold (fun key val paths =>
        let newPath := keyPath currentPath key in
        getAllPathsRecursive val newPath (paths ++ [newPath])) paths v
  | VSlice v =>
      (fix loop (v : list value) (i : nat) (paths : list string) :=
         match v with
         | [] => paths
         | val :: rest =>
             let newPath := indexPath currentPath i in
             loop rest (S i) (getAllPathsRecursive val newPath (paths ++ [newPath]))
         end) v O paths
  | _ => paths
  end.

Definition GetAllPaths (data : value) : list string :=
  getAllPathsRecursive data "" [].

(** ** Shapes of path strings and segments *)

Fixpoint allChars (P : ascii -> bool) (s : string) : bool :=
  match s with
  | EmptyString => true
  | String c r => P c && allChars P r
  end.

Definition isBracket (c : ascii) : bool := isChar c "[" || isChar c "]".
Definition isDelimiter (c : ascii) : bool := isChar c "." || isBracket c.

(** No ["["] and no ["]"]. *)
Definition bracketFree (s : string) : bool :=
  allChars (fun c => negb (isBracket c)) s.

(** None of the three delimiters of the path syntax. *)
Definition plain (s : string) : bool :=
  allChars (fun c => negb (isDelimiter c)) s.

(** Text flushed from the buffer: not empty, no bracket. *)
Definition isKeySegment (part : string) : bool :=
  nonEmpty part && bracketFree part.

(** Text emitted at a ["]"]: bracket-free contents between brackets. *)
Definition isIndexSegment (part : string) : bool :=
  HasPrefix part "[" && HasSuffix part "]"
  && bracketFree (slice part 1 (String.length part - 1)).

(** The combined form [key[0]] of [parsePart]: a ["["] in a part that is
    not of the form [[...]]. *)
Definition isCombinedForm (part : string) : bool :=
  negb (HasPrefix part "[" && HasSuffix part "]")
  && bool_decide (is_Some (Index part "[")).

(** A key segment keeps its meaning when the parts are joined by ["."]
    and scanned again only if it holds no ["."]. *)
Definition rejoinable (part : string) : bool :=
  HasPrefix part "[" || plain part.

(** ** Invariants of the tokenizer *)

(** What [parsePath] returns when it starts from the state [st]. *)
Definition tokens (st : scanner) (path : string) : list string :=
  let st' := scanRunes st path in flush (parts st') (current st').

(** What the tokenizer emits: key segments and index segments. *)
Definition wellFormedPart (part : string) : bool :=
  isKeySegment part || isIndexSegment part.

(** The invariant of the loop of [parsePath]. *)
Definition scannerOk (st : scanner) : Prop :=
  Forall (fun part => wellFormedPart part = true) (parts st)
  /\ bracketFree (current st) = true.

(** What the tokenizer holds is valid UTF-8, whatever the path is. *)
Definition scannerValid (st : scanner) : Prop :=
  Forall (fun part => ValidString part = true) (parts st)
  /\ ValidString (current st) = true.

(** A rune that is decoded as itself in front of any text. *)
Definition selfDecoding (r : rune) : Prop :=
  forall t, runes (r +:+ t) = r :: runes t.

(** A rune of a string whose bytes satisfy [Q]: one of its ASCII bytes, or
    bytes none of which is ASCII. *)
Definition runeOf (Q : ascii -> bool) (r : rune) : Prop :=
  (exists a, r = String a "" /\ isASCII a = true /\ Q a = true)
  \/ (r <> "" /\ allChars (fun b => negb (isASCII b)) r = true).

(** ** Trees *)

(** The size of a tree, to reason by induction on it. *)
Fixpoint vsize (val : value) : nat :=
  match val with
  | VMap m => S (map_fold (fun _ x acc => vsize x + acc) O m)
  | VSlice l => S (foldr (fun x acc => vsize x + acc) O l)
  | _ => 1
  end%nat.

(** ** A library and a document for examples *)

(** [strings.Contains]. *)
Fixpoint Contains (s substr : string) : bool :=
  String.prefix substr s
  || match s with
     | EmptyString => false
     | String _ rest => Contains rest substr
     end.

(** A library for the closed examples below.  A pattern without
    metacharacters matches the strings it occurs in.  None of the examples
    sets a filter on values, so that nothing is ever formatted. *)
Definition literalLibrary : Library := {|
  MatchString pattern s := Contains s pattern;
  FormatFloat _ := EmptyString;
  Marshal _ := EmptyString
|}.

(** The document [{"user":{"name":"J","items":[{"name":"x"}]}}]. *)
Definition userTree : value :=
  VMap {[ "user" :=
    VMap (<[ "name" := VString "J" ]>
          {[ "items" := VSlice [VMap {[ "name" := VString "x" ]}] ]}) ]}.

(** [FindOptions{KeyPattern: pattern}]. *)
Definition keyOptions (pattern : string) : FindOptions :=
  {| KeyPattern := pattern; ValuePattern := ""; ExactValue := ""; ValueType := "" |}.

(** ** Steps of the traversal *)

(** The step of the traversal from [parent] through [part] is the search
    of a key through the elements of a slice. *)
Definition searchesElements (parent : value) (part : string) : bool :=
  match parent, parsePart part with
  | VSlice _, Ok (_, _, false) => true
  | _, _ => false
  end.

(** What the search through the elements of a slice finds in one
    element. *)
Definition lookupIn (item : value) (key : string) : option value :=
  match item with
  | VMap itemMap => itemMap !! key
  | _ => None
  end.

(** A map without entries: what a nil map is, next to the map [make]
    returns.  An assignment into a nil map panics. *)
Definition isEmptyMap (val : value) : bool :=
  match val with
  | VMap m => Nat.eqb (size m) 0
  | _ => false
  end.

(** ** Well-formed trees and paths *)

(** Every key of every map of the tree satisfies [P]. *)
Fixpoint keysAre (P : string -> bool) (val : value) : bool :=
  match val with
  | VMap m => map_fold (fun key x acc => P key && keysAre P x && acc) true m
  | VSlice l => forallb (keysAre P) l
  | _ => true
  end.

(** The length of every slice of the tree is an [int], as in Go. *)
Fixpoint lengthsFit (val : value) : bool :=
  match val with
  | VMap m => map_fold (fun _ x acc => lengthsFit x && acc) true m
  | VSlice l => (Z.of_nat (length l) <=? maxInt) && forallb lengthsFit l
  | _ => true
  end.

(** A key with neither ["."] nor ["["]. *)
Definition dotOpenFree (key : string) : bool :=
  allChars (fun c => negb (isChar c ".") && negb (isChar c "[")) key.

(** A key that is not empty and has none of the three delimiters. *)
Definition validKey (key : string) : bool := nonEmpty key && plain key.

(** A path that leaves the scanner outside brackets. *)
Definition closedPath (path : string) : bool :=
  negb (inBrackets (scanRunes (Scanner [] "" false) path)).

(** A path that is not the empty root path and that the traversal of
    [root] resolves. *)
Definition resolves (root : value) (path : string) : Prop :=
  path <> "" /\ exists place found, traverse root (parsePath path) 0 = Ok (place, found).

(** A segment as a caller writes it: a key without delimiters, or
    bracket-free contents between brackets. *)
Definition isSegment (part : string) : bool :=
  validKey part || isIndexSegment part.

(** A value the traversal cannot enter: [nil] or a scalar. *)
Definition isLeaf (val : value) : bool :=
  match val with
  | VMap _ | VSlice _ => false
  | _ => true
  end.

(** The error of [GetValueByPath] when [part], at position [i], is applied
    to a leaf. *)
Definition leafError (leaf : value) (part : string) (i : nat) : error :=
  match leaf with
  | VNil => ErrValueIsNil part i
  | _ => ErrCannotTraverse part i leaf
  end.

(** A path made of separators only: ["."] and ["]"]. *)
Definition separatorsOnly (path : string) : bool :=
  allChars (fun c => isChar c "." || isChar c "]") path.

(** ** Conversion of the values of a document to strings *)

Section Converter.
Context {lib : Library}.

(** [ConvertValuesToString] rebuilds maps and slices around the converted
    values and returns the first error met.  On a decoded document only
    the cases of maps, slices, strings, [float64], [bool] and [nil] are
    reached. *)
Fixpoint ConvertValuesToString (data : value) : result value :=
  match data with
  | VMap v =>
      result ← map_fold (fun key val acc =>
                 result ← acc;
                 converted ← ConvertValuesToString val;
                 Ok (<[key := converted]> result)) (Ok ∅) v;
      Ok (VMap result)
  | VSlice v =>
      result ← (fix loop (v : list value) : result (list value) :=
                  match v with
                  | [] => Ok []
                  | val :: rest =>
                      converted ← ConvertValuesToString val;
                      result ← loop rest;
                      Ok (converted :: result)
                  end) v;
      Ok (VSlice result)
  | VString v => Ok (VString v)
  | VFloat64 v => Ok (VString (FormatFloat v))
  | VBool v => Ok (VString (FormatBool v))
  | VNil => Ok (VString "")
  end.

(** The document [ConvertValuesToString] returns, as a function. *)
Fixpoint stringified (data : value) : value :=
  match data with
  | VMap m => VMap (stringified <$> m)
  | VSlice l => VSlice (stringified <$> l)
  | _ => VString (convertToString data)
  end.

(** [GetStringByPath]: the zero value [""] next to an error is left out. *)
Definition GetStringByPath (data : value) (path : string) : result string :=
  found ← GetValueByPath data path; Ok (convertToString found).

End Converter.

(** [strconv.ParseBool]; [None] is a non-nil error. *)
Definition ParseBool (str : string) : option bool :=
  if bool_decide (str ∈ ["1"; "t"; "T"; "TRUE"; "true"; "True"]) then Some true
  else if bool_decide (str ∈ ["0"; "f"; "F"; "FALSE"; "false"; "False"])
       then Some false
       else None.

(** [v != 0] on a [float64]: false on the two zeros only. *)
Definition nonZero (v : float64) : bool :=
  match v with
  | S754_zero _ => false
  | _ => true
  end.

Definition convertToBool (val : value) : bool :=
  match val with
  | VNil => false
  | VBool v => v
  | VString v => default false (ParseBool v)
  | VFloat64 v => nonZero v
  | _ => false
  end.

(** [GetBoolByPath]: the zero value [false] next to an error is left
    out. *)
Definition GetBoolByPath (data : value) (path : string) : result bool :=
  found ← GetValueByPath data path; Ok (convertToBool found).

(** Every leaf of the document is a string. *)
Fixpoint allStrings (data : value) : bool :=
  match data with
  | VMap m => map_fold (fun _ x acc => allStrings x && acc) true m
  | VSlice l => forallb allStrings l
  | VString _ => true
  | _ => false
  end.

(** [weaker] has each filter of [options] or leaves it unset. *)
Definition fewerFilters (weaker options : FindOptions) : bool :=
  (negb (nonEmpty (KeyPattern weaker))
   || String.eqb (KeyPattern weaker) (KeyPattern options))
  && (negb (nonEmpty (ValuePattern weaker))
      || String.eqb (ValuePattern weaker) (ValuePattern options))
  && (negb (nonEmpty (ExactValue weaker))
      || String.eqb (ExactValue weaker) (ExactValue options))
  && (negb (nonEmpty (ValueType weaker))
      || String.eqb (ValueType weaker) (ValueType options)).

(** ** The finder under any order of the maps *)

(** A run of [findPathsRecursive] in which each [range] over a map takes
    an order of its own: started with [*paths = paths], the call ends
    with [*paths] and the error of the last argument.  The loop over the
    entries of a map, in the order taken, and the loop over the elements
    of a slice are runs of their own. *)
Section FinderRuns.
Context {lib : Library}.

Inductive findPathsRun :
  value -> string -> option FindOptions -> list string ->
  list string * option error -> Prop :=
| findPathsRun_map v currentPath options paths entries r :
    entries ≡ₚ map_to_list v ->
    findPathsEntries currentPath options entries paths r ->
    findPathsRun (VMap v) currentPath options paths r
| findPathsRun_slice v currentPath options paths r :
    findPathsElements currentPath options v O paths r ->
    findPathsRun (VSlice v) currentPath options paths r
| findPathsRun_other data currentPath options paths :
    isLeaf data = true ->
    findPathsRun data currentPath options paths (paths, None)
with findPathsEntries :
  string -> option FindOptions -> list (string * value) -> list string ->
  list string * option error -> Prop :=
| findPathsEntries_done currentPath options paths :
    findPathsEntries currentPath options [] paths (paths, None)
| findPathsEntries_return currentPath options key val rest paths paths' err :
    findPathsRun val (keyPath currentPath key) options
      (if matchesOptions val key options
       then paths ++ [keyPath currentPath key] else paths)
      (paths', Some err) ->
    findPathsEntries currentPath options ((key, val) :: rest) paths
      (paths', Some err)
| findPathsEntries_next currentPath options key val rest paths paths' r :
    findPathsRun val (keyPath currentPath key) options
      (if matchesOptions val key options
       then paths ++ [keyPath currentPath key] else paths)
      (paths', None) ->
    findPathsEntries currentPath options rest paths' r ->
    findPathsEntries currentPath options ((key, val) :: rest) paths r
with findPathsElements :
  string -> option FindOptions -> list value -> nat -> list string ->
  list string * option error -> Prop :=
| findPathsElements_done currentPath options i paths :
    findPathsElements currentPath options [] i paths (paths, None)
| findPathsElements_return currentPath options val rest i paths paths' err :
    findPathsRun val (indexPath currentPath i) options
      (if matchesOptions val "" options
       then paths ++ [indexPath currentPath i] else paths)
      (paths', Some err) ->
    findPathsElements currentPath options (val :: rest) i paths
      (paths', Some err)
| findPathsElements_next currentPath options val rest i paths paths' r :
    findPathsRun val (indexPath currentPath i) options
      (if matchesOptions val "" options
       then paths ++ [indexPath currentPath i] else paths)
      (paths', None) ->
    findPathsElements currentPath options rest (S i) paths' r ->
    findPathsElements currentPath options (val :: rest) i paths r.

(** A run of [FindPaths]. *)
Definition FindPathsRun (data : value) (options : option FindOptions)
    (r : list string * option error) : Prop :=
  let options :=
    match options with
    | None => Some noOptions
    | Some _ => options
    end in
  findPathsRun data "" options [] r.

End FinderRuns.

(** A run of [getAllPathsRecursive], likewise. *)
Inductive getAllPathsRun :
  value -> string -> list string -> list string -> Prop :=
| getAllPathsRun_map v currentPath paths entries paths' :
    entries ≡ₚ map_to_list v ->
    getAllPathsEntries currentPath entries paths paths' ->
    getAllPathsRun (VMap v) currentPath paths paths'
| getAllPathsRun_slice v currentPath paths paths' :
    getAllPathsElements currentPath v O paths paths' ->
    getAllPathsRun (VSlice v) currentPath paths paths'
| getAllPathsRun_other data currentPath paths :
    isLeaf data = true ->
    getAllPathsRun data currentPath paths paths
with getAllPathsEntries :
  string -> list (string * value) -> list string -> list string -> Prop :=
| getAllPathsEntries_done currentPath paths :
    getAllPathsEntries currentPath [] paths paths
| getAllPathsEntries_next currentPath key val rest paths paths' paths'' :
    getAllPathsRun val (keyPath currentPath key)
      (paths ++ [keyPath currentPath key]) paths' ->
    getAllPathsEntries currentPath rest paths' paths'' ->
    getAllPathsEntries currentPath ((key, val) :: rest) paths paths''
with getAllPathsElements :
  string -> list value -> nat -> list string -> list string -> Prop :=
| getAllPathsElements_done currentPath i paths :
    getAllPathsElements currentPath [] i paths paths
| getAllPathsElements_next currentPath val rest i paths paths' paths'' :
    getAllPathsRun val (indexPath currentPath i)
      (paths ++ [indexPath currentPath i]) paths' ->
    getAllPathsElements currentPath rest (S i) paths' paths'' ->
    getAllPathsElements currentPath (val :: rest) i paths paths''.

(** A run of [GetAllPaths]. *)
Definition GetAllPathsRun (data : value) (paths : list string) : Prop :=
  getAllPathsRun data "" [] paths.

(** * Properties *)

(** ** Strings *)

Lemma append_nil_l (s : string) : "" +:+ s = s.
Proof. reflexivity. Qed.

Lemma append_cons (c : ascii) (s t : string) :
  String c s +:+ t = String c (s +:+ t).
Proof. reflexivity. Qed.

Lemma append_nil_r (s : string) : s +:+ "" = s.
Proof. induction s as [|c s IH]; [done | by rewrite append_cons, IH]. Qed.

Lemma append_assoc (s1 s2 s3 : string) : (s1 +:+ s2) +:+ s3 = s1 +:+ (s2 +:+ s3).
Proof. induction s1 as [|c s1 IH]; [done | by rewrite !append_cons, IH]. Qed.

Lemma length_append (s t : string) :
  String.length (s +:+ t) = (String.length s + String.length t)%nat.
Proof. induction s as [|c s IH]; [done |]. rewrite append_cons. simpl. by rewrite IH. Qed.

Lemma allChars_app P (s1 s2 : string) :
  allChars P (s1 +:+ s2) = allChars P s1 && allChars P s2.
Proof.
  induction s1 as [|c s1 IH]; [done |].
  rewrite append_cons. simpl. by rewrite IH, andb_assoc.
Qed.

Lemma plain_bracketFree (s : string) : plain s = true -> bracketFree s = true.
Proof.
  unfold plain, bracketFree. induction s as [|c s IH]; simpl; [done |].
  rewrite !andb_true_iff. intros [Hc Hs]. split; [| by apply IH].
  unfold isDelimiter in Hc. by destruct (isChar c "."), (isBracket c).
Qed.

(** ** UTF-8 *)

Lemma runes_cons (b0 : ascii) (r0 : string) :
  runes (String b0 r0) =
  if isASCII b0 then String b0 "" :: runes r0
  else
    let invalid := RuneError :: runes r0 in
    match sequenceSize b0, r0 with
    | 2%nat, String b1 r1 =>
        if acceptsSecond b0 b1
        then String b0 (String b1 "") :: runes r1
        else invalid
    | 3%nat, String b1 (String b2 r2) =>
        if acceptsSecond b0 b1 && isContinuation b2
        then String b0 (String b1 (String b2 "")) :: runes r2
        else invalid
    | 4%nat, String b1 (String b2 (String b3 r3)) =>
        if acceptsSecond b0 b1 && isContinuation b2 && isContinuation b3
        then String b0 (String b1 (String b2 (String b3 ""))) :: runes r3
        else invalid
    | _, _ => invalid
    end.
Proof. reflexivity. Qed.

Lemma string_length_ind (P : string -> Prop) :
  (forall s, (forall t, (String.length t < String.length s)%nat -> P t) -> P s) ->
  forall s, P s.
Proof.
  intros H s. apply H.
  induction (String.length s) as [|n IH]; intros t Ht; [lia |].
  apply H. intros u Hu. apply IH. lia.
Qed.


(** Induction on the runs of the decoder. *)
Lemma runes_ind (P : string -> list rune -> Prop) :
  P "" [] ->
  (forall b0 r0,
      isASCII b0 = true -> P r0 (runes r0) ->
      P (String b0 r0) (String b0 "" :: runes r0)) ->
  (forall b0 r0,
      isASCII b0 = false -> P r0 (runes r0) ->
      P (String b0 r0) (RuneError :: runes r0)) ->
  (forall b0 b1 r1,
      isASCII b0 = false -> sequenceSize b0 = 2%nat ->
      acceptsSecond b0 b1 = true -> P r1 (runes r1) ->
      P (String b0 (String b1 r1)) (String b0 (String b1 "") :: runes r1)) ->
  (forall b0 b1 b2 r2,
      isASCII b0 = false -> sequenceSize b0 = 3%nat ->
      acceptsSecond b0 b1 = true ->
      isContinuation b2 = true -> P r2 (runes r2) ->
      P (String b0 (String b1 (String b2 r2)))
        (String b0 (String b1 (String b2 "")) :: runes r2)) ->
  (forall b0 b1 b2 b3 r3,
      isASCII b0 = false -> sequenceSize b0 = 4%nat ->
      acceptsSecond b0 b1 = true ->
      isContinuation b2 = true -> isContinuation b3 = true ->
      P r3 (runes r3) ->
      P (String b0 (String b1 (String b2 (String b3 r3))))
        (String b0 (String b1 (String b2 (String b3 ""))) :: runes r3)) ->
  forall s, P s (runes s).
Proof.
  intros Hnil Hascii Hinvalid H2 H3 H4 s.
  induction s as [s IH] using string_length_ind.
  destruct s as [|b0 r0]; [done |].
  rewrite runes_cons. destruct (isASCII b0) eqn:Hb0.
  { apply Hascii; [done |]. apply IH. simpl. lia. }
  assert (P (String b0 r0) (RuneError :: runes r0)) as Hinv.
  { apply Hinvalid; [done |]. apply IH. simpl. lia. }
  cbv zeta.
  destruct (sequenceSize b0) as [|[|[|[|[|n]]]]] eqn:Hsize; try done.
  - destruct r0 as [|b1 r1]; [done |].
    destruct (acceptsSecond b0 b1) eqn:E1; [| done].
    apply H2; try done. apply IH. simpl. lia.
  - destruct r0 as [|b1 [|b2 r2]]; try done.
    destruct (acceptsSecond b0 b1) eqn:E1; [| done].
    destruct (isContinuation b2) eqn:E2; [| done].
    apply H3; try done. apply IH. simpl. lia.
  - destruct r0 as [|b1 [|b2 [|b3 r3]]]; try done.
    destruct (acceptsSecond b0 b1) eqn:E1; [| done].
    destruct (isContinuation b2) eqn:E2; [| done].
    destruct (isContinuation b3) eqn:E3; [| done].
    apply H4; try done. apply IH. simpl. lia.
Qed.

Lemma inRange_nonASCII (b : ascii) (lo hi : N) :
  (128 <= lo)%N -> inRange b lo hi = true -> isASCII b = false.
Proof.
  unfold inRange, isASCII. intros Hlo [H1 H2]%andb_true_iff.
  apply N.leb_le in H1. apply N.ltb_ge. lia.
Qed.

Lemma isContinuation_nonASCII (b : ascii) :
  isContinuation b = true -> isASCII b = false.
Proof. by apply inRange_nonASCII. Qed.

Lemma acceptsSecond_nonASCII (b0 b1 : ascii) :
  acceptsSecond b0 b1 = true -> isASCII b1 = false.
Proof.
  unfold acceptsSecond.
  repeat match goal with
         | |- context [if ?x then _ else _] => destruct x
         end; by apply inRange_nonASCII.
Qed.

(** An ASCII byte continues no sequence. *)
Lemma acceptsSecond_ASCII (b0 a : ascii) :
  isASCII a = true -> acceptsSecond b0 a = false.
Proof.
  intros Ha. destruct (acceptsSecond b0 a) eqn:E; [| done].
  apply acceptsSecond_nonASCII in E. congruence.
Qed.

Lemma isContinuation_ASCII (a : ascii) :
  isASCII a = true -> isContinuation a = false.
Proof.
  intros Ha. destruct (isContinuation a) eqn:E; [| done].
  apply isContinuation_nonASCII in E. congruence.
Qed.

(** Text in front of an ASCII byte is decoded on its own: no sequence
    runs over the byte. *)
Lemma runes_app_ASCII (s : string) (a : ascii) (t : string) :
  isASCII a = true ->
  runes (s +:+ String a t) = runes s ++ runes (String a t).
Proof.
  intros Ha. induction s as [s IH] using string_length_ind.
  destruct s as [|b0 r0]; [done |].
  rewrite append_cons, !(runes_cons b0).
  destruct (isASCII b0) eqn:Hb0.
  { rewrite IH by (simpl; lia). done. }
  cbv zeta.
  assert (RuneError :: runes (r0 +:+ String a t)
          = (RuneError :: runes r0) ++ runes (String a t)) as Hinv.
  { rewrite IH by (simpl; lia). done. }
  pose proof (acceptsSecond_ASCII b0 a Ha) as Hsec.
  pose proof (isContinuation_ASCII a Ha) as Hcont.
  destruct (sequenceSize b0) as [|[|[|[|[|n]]]]] eqn:Hsize; try done.
  - destruct r0 as [|b1 r1].
    { rewrite append_nil_l in *. by rewrite Hsec. }
    rewrite append_cons in *.
    destruct (acceptsSecond b0 b1); [| done].
    rewrite IH by (simpl; lia). done.
  - destruct r0 as [|b1 [|b2 r2]].
    { rewrite append_nil_l in *. rewrite Hsec. by destruct t. }
    { rewrite !append_cons, append_nil_l in *. by rewrite Hcont, andb_false_r. }
    rewrite !append_cons in *.
    destruct (acceptsSecond b0 b1 && isContinuation b2); [| done].
    rewrite IH by (simpl; lia). done.
  - destruct r0 as [|b1 [|b2 [|b3 r3]]].
    { rewrite append_nil_l in *. rewrite Hsec. by destruct t as [|? [|? ?]]. }
    { rewrite !append_cons, append_nil_l in *.
      rewrite Hcont, andb_false_r. by destruct t. }
    { rewrite !append_cons, append_nil_l in *. by rewrite Hcont, andb_false_r. }
    rewrite !append_cons in *.
    destruct (acceptsSecond b0 b1 && isContinuation b2 && isContinuation b3);
      [| done].
    rewrite IH by (simpl; lia). done.
Qed.

Lemma writeRunes_app (rs1 rs2 : list rune) :
  writeRunes (rs1 ++ rs2) = writeRunes rs1 +:+ writeRunes rs2.
Proof.
  induction rs1 as [|r rs1 IH]; [done |]. simpl. by rewrite IH, append_assoc.
Qed.

Lemma selfDecoding_RuneError : selfDecoding RuneError.
Proof. intros t. reflexivity. Qed.

(** Every rune the decoder yields is decoded as itself. *)
Lemma runes_selfDecoding (s : string) : Forall selfDecoding (runes s).
Proof.
  apply (runes_ind (fun _ rs => Forall selfDecoding rs)); try done.
  - intros b0 r0 Hb0 IH. constructor; [| done].
    intros t. rewrite append_cons, append_nil_l, runes_cons. by rewrite Hb0.
  - intros b0 r0 _ IH. constructor; [apply selfDecoding_RuneError | done].
  - intros b0 b1 r1 Hb0 Hsize H1 IH. constructor; [| done].
    intros t. rewrite !append_cons, append_nil_l, runes_cons.
    by rewrite Hb0, Hsize, H1.
  - intros b0 b1 b2 r2 Hb0 Hsize H1 H2 IH. constructor; [| done].
    intros t. rewrite !append_cons, append_nil_l, runes_cons.
    by rewrite Hb0, Hsize, H1, H2.
  - intros b0 b1 b2 b3 r3 Hb0 Hsize H1 H2 H3 IH. constructor; [| done].
    intros t. rewrite !append_cons, append_nil_l, runes_cons.
    by rewrite Hb0, Hsize, H1, H2, H3.
Qed.

Lemma runeOf_RuneError (Q : ascii -> bool) : runeOf Q RuneError.
Proof. right. split; [done | reflexivity]. Qed.

(** The runes of a string whose bytes satisfy [Q]. *)
Lemma runes_runeOf (Q : ascii -> bool) (s : string) :
  allChars Q s = true -> Forall (runeOf Q) (runes s).
Proof.
  apply (runes_ind (fun s rs => allChars Q s = true -> Forall (runeOf Q) rs));
    try done.
  - intros b0 r0 Hb0 IH [H0 Hr]%andb_true_iff. constructor; [| by apply IH].
    left. by exists b0.
  - intros b0 r0 _ IH [H0 Hr]%andb_true_iff.
    constructor; [apply runeOf_RuneError | by apply IH].
  - intros b0 b1 r1 Hb0 _ H1 IH. simpl. rewrite !andb_true_iff.
    intros (_ & _ & Hr). constructor; [| by apply IH].
    right. split; [done |]. simpl.
    by rewrite Hb0, (acceptsSecond_nonASCII _ _ H1).
  - intros b0 b1 b2 r2 Hb0 _ H1 H2 IH. simpl. rewrite !andb_true_iff.
    intros (_ & _ & _ & Hr). constructor; [| by apply IH].
    right. split; [done |]. simpl.
    by rewrite Hb0, (acceptsSecond_nonASCII _ _ H1), (isContinuation_nonASCII _ H2).
  - intros b0 b1 b2 b3 r3 Hb0 _ H1 H2 H3 IH. simpl. rewrite !andb_true_iff.
    intros (_ & _ & _ & _ & Hr). constructor; [| by apply IH].
    right. split; [done |]. simpl.
    by rewrite Hb0, (acceptsSecond_nonASCII _ _ H1),
      (isContinuation_nonASCII _ H2), (isContinuation_nonASCII _ H3).
Qed.

(** Writing the runes back never shortens the text. *)
Lemma length_toValid (s : string) :
  (String.length s <= String.length (toValid s))%nat.
Proof.
  unfold toValid.
  apply (runes_ind (fun s rs =>
           (String.length s <= String.length (writeRunes rs))%nat));
    intros; cbn [writeRunes]; rewrite ?length_append; simpl in *; lia.
Qed.

(** Written runes are decoded as they were written. *)
Lemma runes_writeRunes (rs : list rune) (t : string) :
  Forall selfDecoding rs -> runes (writeRunes rs +:+ t) = rs ++ runes t.
Proof.
  induction 1 as [|r rs Hr Hrs IH]; [done |].
  simpl. by rewrite append_assoc, Hr, IH.
Qed.

Lemma ValidString_toValid (s : string) : ValidString s = true <-> toValid s = s.
Proof. apply String.eqb_eq. Qed.

Lemma runes_toValid (s : string) : runes (toValid s) = runes s.
Proof.
  unfold toValid.
  rewrite <- (append_nil_r (writeRunes _)), runes_writeRunes
    by apply runes_selfDecoding.
  apply app_nil_r.
Qed.

Lemma toValid_valid (s : string) : ValidString (toValid s) = true.
Proof. apply ValidString_toValid. unfold toValid at 1. by rewrite runes_toValid. Qed.

(** Valid text is decoded on its own, whatever follows. *)
Lemma runes_app_valid (s t : string) :
  ValidString s = true -> runes (s +:+ t) = runes s ++ runes t.
Proof.
  intros Hs%ValidString_toValid.
  pose proof (runes_writeRunes (runes s) t (runes_selfDecoding s)) as H.
  fold (toValid s) in H. by rewrite Hs in H.
Qed.

Lemma toValid_app_valid (s t : string) :
  ValidString s = true -> toValid (s +:+ t) = s +:+ toValid t.
Proof.
  intros Hs. unfold toValid. rewrite runes_app_valid, writeRunes_app by done.
  apply ValidString_toValid in Hs. unfold toValid in Hs. by rewrite Hs.
Qed.

Lemma ValidString_app (s t : string) :
  ValidString s = true -> ValidString t = true -> ValidString (s +:+ t) = true.
Proof.
  intros Hs Ht. apply ValidString_toValid. rewrite toValid_app_valid by done.
  by apply ValidString_toValid in Ht as ->.
Qed.

Lemma toValid_cons_ASCII (a : ascii) (t : string) :
  isASCII a = true -> toValid (String a t) = String a (toValid t).
Proof. intros Ha. unfold toValid. rewrite runes_cons, Ha. done. Qed.

Lemma toValid_app_ASCII (s : string) (a : ascii) (t : string) :
  isASCII a = true ->
  toValid (s +:+ String a t) = toValid s +:+ String a (toValid t).
Proof.
  intros Ha. unfold toValid at 1.
  rewrite runes_app_ASCII, writeRunes_app by done.
  fold (toValid s). fold (toValid (String a t)). by rewrite toValid_cons_ASCII.
Qed.

Lemma append_length_inj (s1 s2 t1 t2 : string) :
  String.length s1 = String.length s2 ->
  s1 +:+ t1 = s2 +:+ t2 -> s1 = s2 /\ t1 = t2.
Proof.
  revert s2. induction s1 as [|c s1 IH]; intros [|d s2] Hlen Heq; try done.
  rewrite !append_cons in Heq. injection Heq as -> Heq.
  destruct (IH s2) as [-> ->]; [by injection Hlen | done | done].
Qed.

(** Text around an ASCII byte is valid exactly when both sides are. *)
Lemma ValidString_app_ASCII (s : string) (a : ascii) (t : string) :
  isASCII a = true ->
  ValidString (s +:+ String a t) = true <->
  ValidString s = true /\ ValidString t = true.
Proof.
  intros Ha. rewrite !ValidString_toValid, toValid_app_ASCII by done. split.
  - intros Heq. pose proof (length_toValid s) as Hs.
    pose proof (length_toValid t) as Ht.
    pose proof (f_equal String.length Heq) as Hlen.
    rewrite !length_append in Hlen. simpl in Hlen.
    assert (String.length (toValid s) = String.length s) as Hl by lia.
    destruct (append_length_inj _ _ _ _ Hl Heq) as [H1 H2].
    split; [done | congruence].
  - by intros [-> ->].
Qed.

Lemma ValidString_cons_ASCII (a : ascii) (t : string) :
  isASCII a = true -> ValidString (String a t) = true <-> ValidString t = true.
Proof.
  intros Ha. pose proof (ValidString_app_ASCII "" a t Ha) as H.
  rewrite append_nil_l in H. rewrite H. split; [by intros [_ ?] | by split].
Qed.

(** Text of ASCII bytes is valid. *)
Lemma ValidString_ASCII (s : string) :
  allChars isASCII s = true -> ValidString s = true.
Proof.
  induction s as [|a s IH]; [done |]. simpl. intros [Ha Hs]%andb_true_iff.
  apply ValidString_cons_ASCII; auto.
Qed.

(** ** The scanner *)

Lemma parsePath_tokens (path : string) :
  parsePath path = tokens (Scanner [] "" false) path.
Proof. done. Qed.

(** An ASCII byte is one iteration of the loop. *)
Lemma scanRunes_cons (st : scanner) (a : ascii) (s : string) :
  isASCII a = true ->
  scanRunes st (String a s) = scanRunes (scanRune st (String a "")) s.
Proof. intros Ha. unfold scanRunes. by rewrite runes_cons, Ha. Qed.

(** The loop over text in front of an ASCII byte ends before the byte. *)
Lemma scanRunes_app (st : scanner) (s1 : string) (a : ascii) (s2 : string) :
  isASCII a = true ->
  scanRunes st (s1 +:+ String a s2) = scanRunes (scanRunes st s1) (String a s2).
Proof. intros Ha. unfold scanRunes. by rewrite runes_app_ASCII, foldl_app. Qed.

(** So does the loop over valid text. *)
Lemma scanRunes_app_valid (st : scanner) (s1 s2 : string) :
  ValidString s1 = true ->
  scanRunes st (s1 +:+ s2) = scanRunes (scanRunes st s1) s2.
Proof. intros Hs1. unfold scanRunes. by rewrite runes_app_valid, foldl_app. Qed.

Lemma flush_app (ps qs : list string) (cur : string) :
  flush (ps ++ qs) cur = ps ++ flush qs cur.
Proof. destruct cur; simpl; [done | by rewrite app_assoc]. Qed.

(** Parts already emitted are carried along untouched. *)
Lemma scanRune_frame (ps qs : list string) (cur : string) (b : bool) (c : rune) :
  scanRune (Scanner (ps ++ qs) cur b) c =
  let st := scanRune (Scanner qs cur b) c in
  Scanner (ps ++ parts st) (current st) (inBrackets st).
Proof.
  unfold scanRune; simpl.
  repeat match goal with
         | |- context [if ?x then _ else _] => destruct x; simpl
         end; rewrite ?flush_app, ?app_assoc; done.
Qed.

Lemma scanRunes_frame (ps qs : list string) (cur : string) (b : bool) (s : string) :
  scanRunes (Scanner (ps ++ qs) cur b) s =
  let st := scanRunes (Scanner qs cur b) s in
  Scanner (ps ++ parts st) (current st) (inBrackets st).
Proof.
  unfold scanRunes. revert qs cur b.
  induction (runes s) as [|c rs IH]; intros qs cur b; simpl; [done |].
  rewrite scanRune_frame. simpl. by rewrite IH; destruct (scanRune (Scanner qs cur b) c).
Qed.

Lemma tokens_frame (ps : list string) (cur : string) (b : bool) (s : string) :
  tokens (Scanner ps cur b) s = ps ++ tokens (Scanner [] cur b) s.
Proof.
  unfold tokens. pose proof (scanRunes_frame ps [] cur b s) as H.
  rewrite app_nil_r in H. rewrite H. simpl. by rewrite flush_app.
Qed.

(** A rune of one ASCII byte is compared as that byte. *)
Lemma isRune_ASCII (a c : ascii) : isRune (String a "") c = isChar a c.
Proof. unfold isRune, isChar. simpl. apply andb_true_r. Qed.

(** The delimiters are ASCII: no other rune is one of them. *)
Lemma isRune_nonASCII (r : rune) (c : ascii) :
  allChars (fun b => negb (isASCII b)) r = true -> isASCII c = true ->
  isRune r c = false.
Proof.
  intros Hr Hc. destruct r as [|b r]; [done |]. simpl in Hr.
  apply andb_true_iff in Hr as [Hb%negb_true_iff _].
  unfold isRune. simpl. destruct (Ascii.eqb_spec b c) as [-> |]; [congruence | done].
Qed.

Lemma isRune_eq (r : rune) (c : ascii) : isRune r c = true -> r = String c "".
Proof. apply String.eqb_eq. Qed.

Lemma isBracket_ASCII (b : ascii) : isBracket b = true -> isASCII b = true.
Proof.
  unfold isBracket, isChar.
  by intros [->%Ascii.eqb_eq | ->%Ascii.eqb_eq]%orb_true_iff.
Qed.

Lemma nonASCII_bracketFree (r : string) :
  allChars (fun b => negb (isASCII b)) r = true -> bracketFree r = true.
Proof.
  unfold bracketFree. induction r as [|b r IH]; [done |]. simpl.
  intros [Hb%negb_true_iff Hr]%andb_true_iff. rewrite IH by done.
  destruct (isBracket b) eqn:E; [| done].
  apply isBracket_ASCII in E. congruence.
Qed.

(** The runes of text without brackets are no brackets. *)
Lemma runeOf_bracketFree (Q : ascii -> bool) (r : rune) :
  runeOf Q r -> (forall a, Q a = true -> isBracket a = false) ->
  isRune r "[" = false /\ isRune r "]" = false /\ bracketFree r = true.
Proof.
  intros [(a & -> & Ha & HQ) | [Hne Hr]] HQb.
  - rewrite !isRune_ASCII. apply HQb in HQ. unfold bracketFree. simpl.
    rewrite HQ. unfold isBracket in HQ. by apply orb_false_iff in HQ as [-> ->].
  - by rewrite !isRune_nonASCII, nonASCII_bracketFree.
Qed.

(** Outside brackets, a rune that is no delimiter is written to the
    buffer. *)
Lemma scanRune_plain (st : scanner) (r : rune) :
  runeOf (fun c => negb (isDelimiter c)) r ->
  scanRune st r = Scanner (parts st) (current st +:+ r) (inBrackets st).
Proof.
  intros Hr. unfold scanRune.
  destruct (runeOf_bracketFree _ _ Hr) as (-> & -> & _).
  { intros a Ha%negb_true_iff. unfold isDelimiter in Ha.
    by apply orb_false_iff in Ha as [_ ?]. }
  destruct Hr as [(a & -> & Ha & HQ) | [Hne Hr]].
  - rewrite isRune_ASCII. apply negb_true_iff in HQ. unfold isDelimiter in HQ.
    by apply orb_false_iff in HQ as [-> _].
  - by rewrite isRune_nonASCII.
Qed.

(** Inside brackets, a ["."] is written as well. *)
Lemma scanRune_inside (ps : list string) (cur : string) (r : rune) :
  runeOf (fun c => negb (isBracket c)) r ->
  scanRune (Scanner ps cur true) r = Scanner ps (cur +:+ r) true.
Proof.
  intros Hr. unfold scanRune.
  destruct (runeOf_bracketFree _ _ Hr) as (-> & -> & _).
  { by intros a Ha%negb_true_iff. }
  simpl. by destruct (isRune r ".").
Qed.

(** Text without delimiters is appended to the buffer, an invalid byte
    as [RuneError]. *)
Lemma scanRunes_text (ps : list string) (cur : string) (b : bool) (s : string) :
  plain s = true ->
  scanRunes (Scanner ps cur b) s = Scanner ps (cur +:+ toValid s) b.
Proof.
  intros Hs%runes_runeOf. unfold scanRunes, toValid. revert cur.
  induction Hs as [|r rs Hr _ IH]; intros cur; simpl.
  - by rewrite append_nil_r.
  - rewrite scanRune_plain by done. simpl. by rewrite IH, append_assoc.
Qed.

Lemma scanRunes_plain (ps : list string) (cur : string) (b : bool) (s : string) :
  plain s = true -> ValidString s = true ->
  scanRunes (Scanner ps cur b) s = Scanner ps (cur +:+ s) b.
Proof.
  intros Hs Hv%ValidString_toValid. by rewrite scanRunes_text, Hv.
Qed.

(** Inside brackets, a ["."] is text as well. *)
Lemma scanRunes_inside (ps : list string) (cur : string) (s : string) :
  bracketFree s = true ->
  scanRunes (Scanner ps cur true) s = Scanner ps (cur +:+ toValid s) true.
Proof.
  intros Hs%runes_runeOf. unfold scanRunes, toValid. revert cur.
  induction Hs as [|r rs Hr _ IH]; intros cur; simpl.
  - by rewrite append_nil_r.
  - rewrite scanRune_inside by done. by rewrite IH, append_assoc.
Qed.

(** ** Slices of strings *)

Lemma substring_prefix (s t : string) :
  String.substring 0 (String.length s) (s +:+ t) = s.
Proof.
  induction s as [|c s IH]; [by destruct t |].
  rewrite append_cons. simpl. by rewrite IH.
Qed.

Lemma HasSuffix_append (s : string) (c : ascii) :
  HasSuffix (s +:+ String c "") c = true.
Proof.
  induction s as [|d s IH]; [apply Ascii.eqb_refl |].
  rewrite append_cons. simpl. rewrite IH.
  by destruct (s +:+ String c "") eqn:E; [destruct s|].
Qed.

(** The contents of a bracketed segment: [part[1 : len(part)-1]]. *)
Lemma slice_bracketed (c : string) :
  let part := "[" +:+ c +:+ "]" in
  slice part 1 (String.length part - 1) = c.
Proof.
  simpl. unfold slice. rewrite append_cons, append_nil_l. simpl.
  rewrite length_append. simpl.
  replace (String.length c + 1 - 0 - 1)%nat with (String.length c) by lia.
  apply substring_prefix.
Qed.

Lemma isIndexSegment_bracketed (c : string) :
  bracketFree c = true -> isIndexSegment ("[" +:+ c +:+ "]") = true.
Proof.
  intros Hc. unfold isIndexSegment. rewrite slice_bracketed, Hc.
  rewrite append_cons, append_nil_l. simpl.
  pose proof (HasSuffix_append c "]") as Hs.
  destruct (c +:+ "]") eqn:E; [by destruct c | by rewrite Hs].
Qed.

Lemma bracketFree_Index (s : string) :
  bracketFree s = true -> Index s "[" = None /\ Index s "]" = None.
Proof.
  unfold bracketFree. induction s as [|c s IH]; simpl; [done |].
  rewrite andb_true_iff. intros [Hc Hs]. destruct (IH Hs) as [-> ->].
  unfold isBracket in Hc. by destruct (isChar c "["), (isChar c "]").
Qed.

Lemma bracketFree_HasPrefix (s : string) :
  bracketFree s = true -> HasPrefix s "[" = false.
Proof.
  destruct s as [|c s]; [done |]. unfold bracketFree; simpl.
  rewrite andb_true_iff. intros [Hc _]. unfold isBracket in Hc.
  by destruct (isChar c "[").
Qed.

(** ** What the tokenizer emits *)

Lemma flush_ok (ps : list string) (cur : string) :
  Forall (fun part => wellFormedPart part = true) ps ->
  bracketFree cur = true ->
  Forall (fun part => wellFormedPart part = true) (flush ps cur).
Proof.
  intros Hps Hcur. destruct cur as [|c cur]; [done |]. simpl.
  apply Forall_app; split; [done |]. constructor; [| done].
  unfold wellFormedPart, isKeySegment. by rewrite Hcur.
Qed.

Lemma bracketFree_writeRune (cur : string) (c : rune) :
  bracketFree cur = true -> bracketFree c = true ->
  bracketFree (writeRune cur c) = true.
Proof.
  intros Hcur Hc. unfold bracketFree, writeRune in *.
  by rewrite allChars_app, Hcur.
Qed.

Lemma allChars_true (s : string) : allChars (fun _ => true) s = true.
Proof. by induction s. Qed.

(** A rune of the path that is no bracket has no bracket in its bytes. *)
Lemma runeOf_no_bracket (r : rune) :
  runeOf (fun _ => true) r ->
  isRune r "[" = false -> isRune r "]" = false -> bracketFree r = true.
Proof.
  intros [(a & -> & Ha & _) | [Hne Hr]] Hopen Hclose.
  - rewrite isRune_ASCII in Hopen, Hclose. unfold bracketFree, isBracket. simpl.
    by rewrite Hopen, Hclose.
  - by apply nonASCII_bracketFree.
Qed.

Lemma scanRune_ok (st : scanner) (c : rune) :
  runeOf (fun _ => true) c ->
  scannerOk st -> scannerOk (scanRune st c).
Proof.
  intros Hc [Hps Hcur]. unfold scanRune.
  destruct (isRune c ".") eqn:Hdot.
  { apply isRune_eq in Hdot as ->.
    destruct (inBrackets st); simpl; split; simpl; auto using flush_ok.
    by apply bracketFree_writeRune. }
  destruct (isRune c "[") eqn:Hopen.
  { split; simpl; auto using flush_ok. }
  destruct (isRune c "]") eqn:Hclose.
  { destruct (inBrackets st); [| done]. split; simpl; [| done].
    apply Forall_app; split; [done |]. constructor; [| done].
    unfold wellFormedPart. by rewrite isIndexSegment_bracketed, orb_true_r. }
  split; simpl; [done |]. apply bracketFree_writeRune; [done |].
  by apply runeOf_no_bracket.
Qed.

Lemma scanRunes_ok (st : scanner) (path : string) :
  scannerOk st -> scannerOk (scanRunes st path).
Proof.
  unfold scanRunes.
  pose proof (runes_runeOf (fun _ => true) path (allChars_true path)) as Hrs.
  revert st. induction Hrs as [|c rs Hc _ IH]; intros st Hst; simpl; [done |].
  by apply IH, scanRune_ok.
Qed.

Lemma parsePath_wellFormed (path : string) :
  Forall (fun part => wellFormedPart part = true) (parsePath path).
Proof.
  unfold parsePath.
  destruct (scanRunes_ok (Scanner [] "" false) path) as [Hps Hcur]; [by split |].
  by apply flush_ok.
Qed.

(** ** The tokenizer emits valid UTF-8 *)

Lemma selfDecoding_valid (r : rune) : selfDecoding r -> ValidString r = true.
Proof.
  intros Hr. apply ValidString_toValid. unfold toValid.
  rewrite <- (append_nil_r r) at 1. rewrite Hr. simpl. apply append_nil_r.
Qed.

Lemma flush_valid (ps : list string) (cur : string) :
  Forall (fun part => ValidString part = true) ps ->
  ValidString cur = true ->
  Forall (fun part => ValidString part = true) (flush ps cur).
Proof.
  intros Hps Hcur. destruct cur as [|c cur]; [done |]. simpl.
  apply Forall_app; split; [done |]. by constructor.
Qed.

(** Valid text between brackets is valid. *)
Lemma ValidString_bracketed (c : string) :
  ValidString ("[" +:+ c +:+ "]") = true <-> ValidString c = true.
Proof.
  rewrite append_cons, append_nil_l, ValidString_cons_ASCII by done.
  rewrite ValidString_app_ASCII by done. split; [by intros [? _] | done].
Qed.

Lemma scanRune_valid (st : scanner) (c : rune) :
  selfDecoding c ->
  scannerValid st -> scannerValid (scanRune st c).
Proof.
  intros Hc%selfDecoding_valid [Hps Hcur]. unfold scanRune, writeRune.
  repeat match goal with
         | |- context [if ?x then _ else _] => destruct x
         end; split; simpl; auto using flush_valid, ValidString_app.
  apply Forall_app; split; [done |]. constructor; [| done].
  by apply ValidString_bracketed.
Qed.

Lemma scanRunes_valid (st : scanner) (path : string) :
  scannerValid st -> scannerValid (scanRunes st path).
Proof.
  unfold scanRunes. pose proof (runes_selfDecoding path) as Hrs.
  revert st. induction Hrs as [|c rs Hc _ IH]; intros st Hst; simpl; [done |].
  by apply IH, scanRune_valid.
Qed.

(** Whatever the bytes of the path are, the segments are valid UTF-8: an
    invalid byte is written as [RuneError]. *)
Lemma parsePath_valid (path : string) :
  Forall (fun part => ValidString part = true) (parsePath path).
Proof.
  unfold parsePath.
  destruct (scanRunes_valid (Scanner [] "" false) path) as [Hps Hcur]; [by split |].
  by apply flush_valid.
Qed.

(** ** The segment parser on tokenizer output *)

Lemma parsePart_key (part : string) :
  bracketFree part = true -> parsePart part = Ok (part, -1, false).
Proof.
  intros H. unfold parsePart.
  rewrite (bracketFree_HasPrefix _ H). simpl.
  by destruct (bracketFree_Index _ H) as [-> _].
Qed.

Lemma parsePart_index (part : string) :
  isIndexSegment part = true ->
  parsePart part =
    match Atoi (slice part 1 (String.length part - 1)) with
    | Some idx => Ok ("", idx, true)
    | None => Ok ("", -1, false)
    end.
Proof.
  unfold isIndexSegment, parsePart. rewrite !andb_true_iff.
  intros [[-> ->] _]. simpl. by destruct (Atoi _).
Qed.

Lemma parsePart_wellFormed (part : string) :
  wellFormedPart part = true ->
  exists key index isArray, parsePart part = Ok (key, index, isArray).
Proof.
  unfold wellFormedPart. rewrite orb_true_iff. intros [H | H].
  - unfold isKeySegment in H. apply andb_true_iff in H as [_ H].
    rewrite (parsePart_key _ H). eauto.
  - rewrite (parsePart_index _ H). destruct (Atoi _); eauto.
Qed.

Lemma isCombinedForm_wellFormed (part : string) :
  wellFormedPart part = true -> isCombinedForm part = false.
Proof.
  unfold wellFormedPart, isCombinedForm. rewrite orb_true_iff. intros [H | H].
  - unfold isKeySegment in H. apply andb_true_iff in H as [_ H].
    destruct (bracketFree_Index _ H) as [-> _].
    rewrite bool_decide_eq_false_2; [apply andb_false_r |].
    by intros [? ?].
  - unfold isIndexSegment in H. rewrite !andb_true_iff in H.
    by destruct H as [[-> ->] _].
Qed.

(** ** The traversal *)

Ltac unbind := unfold mbind, result_bind; simpl.

(** The loop over [pre ++ rest] is the loop over [pre] followed by the
    loop over [rest] from where the first one ends. *)
Lemma traverse_app (data : value) (pre rest : list string) (i : nat) :
  traverse data (pre ++ rest) i =
  match traverse data pre i with
  | Ok (place, found) =>
      match traverse found rest (i + length pre) with
      | Ok (place', found') => Ok (place ++ place', found')
      | Err e => Err e
      | Panic => Panic
      end
  | Err e => Err e
  | Panic => Panic
  end.
Proof.
  revert data i. induction pre as [|part pre IH]; intros data i.
  - simpl. rewrite Nat.add_0_r. by destruct (traverse data rest i) as [[??]| |].
  - simpl. replace (i + S (length pre))%nat with (S i + length pre)%nat by lia.
    destruct data; try done.
    + destruct (parsePart part) as [[[key index] isArray]| |]; unbind; try done.
      destruct isArray; [done |]. destruct (m !! key) as [next|]; [| done].
      rewrite IH. destruct (traverse next pre (S i)) as [[??]| |]; unbind; try done.
      by destruct (traverse _ rest _) as [[??]| |].
    + destruct (parsePart part) as [[[key index] isArray]| |]; unbind; try done.
      destruct isArray.
      * destruct ((index <? 0) || (index >=? Z.of_nat (length l))); [done |].
        destruct (l !! Z.to_nat index) as [next|]; [| done].
        rewrite IH. destruct (traverse next pre (S i)) as [[??]| |]; unbind; try done.
        by destruct (traverse _ rest _) as [[??]| |].
      * destruct (findInElements l key 0) as [[j next]|]; [| done].
        rewrite IH. destruct (traverse next pre (S i)) as [[??]| |]; unbind; try done.
        by destruct (traverse _ rest _) as [[??]| |].
Qed.

(** On the parts the tokenizer emits the loop returns: a value or an
    error, never a panic. *)
Lemma traverse_no_panic (data : value) (parts : list string) (i : nat) :
  Forall (fun part => wellFormedPart part = true) parts ->
  traverse data parts i <> Panic.
Proof.
  revert data i. induction parts as [|part rest IH]; intros data i Hparts; [done |].
  inversion Hparts as [|? ? Hpart Hrest]; subst.
  destruct (parsePart_wellFormed _ Hpart) as (key & index & isArray & Hp).
  simpl. destruct data; try done; rewrite Hp; unbind.
  - destruct isArray; [done |]. destruct (m !! key) as [next|]; [| done].
    specialize (IH next (S i) Hrest).
    by destruct (traverse next rest (S i)) as [[??]| |].
  - destruct isArray.
    + destruct (index <? 0) eqn:Hlo; [done |].
      destruct (index >=? Z.of_nat (length l)) eqn:Hhi; [done |]. simpl.
      destruct (lookup_lt_is_Some_2 l (Z.to_nat index)) as [next ->]; [lia |].
      specialize (IH next (S i) Hrest).
      by destruct (traverse next rest (S i)) as [[??]| |].
    + destruct (findInElements l key 0) as [[j next]|]; [| done].
      specialize (IH next (S i) Hrest).
      by destruct (traverse next rest (S i)) as [[??]| |].
Qed.

Lemma navigate_no_panic (data : value) (path : string) :
  navigate data path <> Panic.
Proof.
  unfold navigate. destruct (decide (path = "")); [done |].
  apply traverse_no_panic, parsePath_wellFormed.
Qed.

Lemma GetValueByPath_no_panic (data : value) (path : string) :
  GetValueByPath data path <> Panic.
Proof.
  unfold GetValueByPath. pose proof (navigate_no_panic data path).
  by destruct (navigate data path) as [[??]| |].
Qed.

(** ** Claims on the navigator *)

(** C6. [GetValueByPath] with the empty path returns the tree itself,
    whatever the tree is: it never returns an error and never panics. *)
Theorem GetValueByPath_empty_path (data : value) :
  GetValueByPath data "" = Ok data.
Proof. reflexivity. Qed.

(** C4. [HasPath] returns true exactly when [GetValueByPath] returns a
    value, false exactly when it returns an error; neither call panics. *)
Theorem HasPath_iff_GetValueByPath (data : value) (path : string) :
  (HasPath data path = Ok true <-> exists found, GetValueByPath data path = Ok found)
  /\ (HasPath data path = Ok false <-> exists err, GetValueByPath data path = Err err)
  /\ HasPath data path <> Panic.
Proof.
  unfold HasPath. pose proof (GetValueByPath_no_panic data path) as Hnp.
  destruct (GetValueByPath data path) as [found|err|]; [| | done].
  - repeat split; eauto; try done. by intros [? ?].
  - repeat split; eauto; try done. by intros [? ?].
Qed.

(** C7. Wherever the traversal stands on a slice, an index-only segment
    whose index is negative or not below the length ends it with the
    index-out-of-range error; ["items[5]"] against a two-element slice
    under ["items"] does so; and [GetValueByPath] never panics. *)
Theorem GetValueByPath_index_out_of_range :
  (forall (data : value) (pre rest : list string) (part : string)
          (place : list selector) (v : list value) (index : Z),
      traverse data pre 0 = Ok (place, VSlice v) ->
      parsePart part = Ok ("", index, true) ->
      index < 0 \/ Z.of_nat (length v) <= index ->
      traverse data (pre ++ part :: rest) 0
      = Err (ErrIndexOutOfRange part (length pre) index))
  /\ (forall a b : value,
      GetValueByPath (VMap {[ "items" := VSlice [a; b] ]}) "items[5]"
      = Err (ErrIndexOutOfRange "[5]" 1 5))
  /\ (forall (data : value) (path : string), GetValueByPath data path <> Panic).
Proof.
  split; [| split].
  - intros data pre rest part place v index Hpre Hpart Hrange.
    rewrite traverse_app, Hpre. simpl. rewrite Hpart. unbind.
    destruct (index <? 0) eqn:Hlo; [done |].
    destruct (index >=? Z.of_nat (length v)) eqn:Hhi; [done | lia].
  - intros a b. reflexivity.
  - apply GetValueByPath_no_panic.
Qed.

Lemma GetValueByPath_index_out_of_range_witness :
  traverse (VMap {[ "items" := VSlice [VNil; VBool true] ]})
           (["items"] ++ "[-1]" :: ["x"]) 0
  = Err (ErrIndexOutOfRange "[-1]" 1 (-1)).
Proof.
  apply (proj1 GetValueByPath_index_out_of_range _ ["items"] ["x"] "[-1]"
           [AtKey "items"] [VNil; VBool true] (-1)).
  - reflexivity.
  - reflexivity.
  - left. lia.
Defined.

(** ** Claims on the tokenizer *)

Lemma scanRune_dot (ps : list string) (buf : string) :
  scanRune (Scanner ps buf false) "." = Scanner (flush ps buf) "" false.
Proof. reflexivity. Qed.

Lemma scanRune_open (st : scanner) :
  scanRune st "[" = Scanner (flush (parts st) (current st)) "" true.
Proof. reflexivity. Qed.

Lemma scanRune_close (ps : list string) (cur : string) :
  scanRune (Scanner ps cur true) "]" = Scanner (ps ++ ["[" +:+ cur +:+ "]"]) "" false.
Proof. reflexivity. Qed.

Lemma scanRunes_bracketed (ps : list string) (cur : string) (b : bool) (c : string) :
  bracketFree c = true -> ValidString c = true ->
  scanRunes (Scanner ps cur b) ("[" +:+ c +:+ "]")
  = Scanner (flush ps cur ++ ["[" +:+ c +:+ "]"]) "" false.
Proof.
  intros Hc Hv%ValidString_toValid. rewrite append_cons, append_nil_l.
  rewrite scanRunes_cons, scanRune_open by done. simpl.
  rewrite scanRunes_app, scanRunes_inside by done.
  rewrite scanRunes_cons, scanRune_close by done.
  by rewrite append_nil_l, Hv.
Qed.

(** C8. ["key[0]"] is tokenized into the two segments ["key"] and
    ["[0]"]; a ["["] flushes the pending text as a segment of its own
    before the bracket is entered, so that a key followed by a bracket is
    split there, the key being emitted as the loop wrote it: itself when
    it is valid UTF-8, with [U+FFFD] for every byte that is not part of a
    valid sequence otherwise; and no segment the tokenizer emits has the
    combined form of a key followed by a bracketed index. *)
Theorem parsePath_splits_key_and_index :
  parsePath "key[0]" = ["key"; "[0]"]
  /\ (forall st : scanner,
        scanRune st "[" = Scanner (flush (parts st) (current st)) "" true)
  /\ (forall key rest : string,
        nonEmpty key = true -> plain key = true ->
        parsePath (key +:+ "[" +:+ rest) = toValid key :: parsePath ("[" +:+ rest)
        /\ (ValidString key = true -> toValid key = key))
  /\ (forall path : string,
        Forall (fun part => isCombinedForm part = false) (parsePath path)).
Proof.
  split; [reflexivity |]. split; [done |]. split.
  - intros key rest Hne Hplain. split; [| apply ValidString_toValid].
    rewrite !parsePath_tokens. unfold tokens at 1.
    rewrite append_cons, append_nil_l.
    rewrite scanRunes_app, scanRunes_text, append_nil_l by done.
    rewrite scanRunes_cons, scanRune_open by done. simpl parts. simpl current.
    pose proof (length_toValid key) as Hlen.
    destruct (toValid key) as [|c key'] eqn:Hkey;
      [destruct key; [done | simpl in Hlen; lia] |].
    simpl flush.
    change (flush _ _) with (tokens (Scanner ([String c key'] ++ []) "" true) rest).
    rewrite tokens_frame. unfold tokens, parsePath.
    by rewrite scanRunes_cons, scanRune_open by done.
  - intros path. eapply Forall_impl; [apply parsePath_wellFormed |].
    intros part. apply isCombinedForm_wellFormed.
Qed.

Lemma parsePath_splits_key_and_index_witness :
  parsePath ("user" +:+ "[" +:+ "1].name")
  = toValid "user" :: parsePath ("[" +:+ "1].name")
  /\ (ValidString "user" = true -> toValid "user" = "user").
Proof.
  apply (proj1 (proj2 (proj2 parsePath_splits_key_and_index))); reflexivity.
Defined.

Lemma HasSuffix_inv (s : string) (c : ascii) :
  HasSuffix s c = true -> exists s0, s = s0 +:+ String c "".
Proof.
  induction s as [|d s IH]; [done |]. simpl. destruct s as [|e s].
  - intros ->%Ascii.eqb_eq. by exists "".
  - intros [s0 Hs0]%IH. exists (String d s0). by rewrite append_cons, <- Hs0.
Qed.

Lemma isIndexSegment_inv (part : string) :
  isIndexSegment part = true ->
  exists c, part = "[" +:+ c +:+ "]" /\ bracketFree c = true.
Proof.
  unfold isIndexSegment. rewrite !andb_true_iff. intros [[Hpre Hsuf] Hfree].
  destruct part as [|d part]; [done |]. simpl in Hpre.
  apply Ascii.eqb_eq in Hpre as ->.
  destruct part as [|e part]; [done |].
  change (HasSuffix (String "[" (String e part)) "]")
    with (HasSuffix (String e part) "]") in Hsuf.
  apply HasSuffix_inv in Hsuf as [c Hc]. exists c.
  assert (String "[" (String e part) = "[" +:+ c +:+ "]") as Heq
    by (by rewrite Hc).
  split; [done |]. rewrite Heq in Hfree. by rewrite slice_bracketed in Hfree.
Qed.

(** Joined by ["."] and scanned again, well-formed parts of valid UTF-8
    come back as they are, provided the key segments hold no ["."]. *)
Lemma tokens_Join (segs ps : list string) :
  Forall (fun part => wellFormedPart part = true) segs ->
  Forall (fun part => rejoinable part = true) segs ->
  Forall (fun part => ValidString part = true) segs ->
  tokens (Scanner ps "" false) (Join segs) = ps ++ segs.
Proof.
  revert ps. induction segs as [|seg rest IH]; intros ps Hwf Hrj Hval.
  { simpl. unfold tokens. simpl. by rewrite app_nil_r. }
  inversion Hwf as [|? ? Hseg Hrest]; subst.
  inversion Hrj as [|? ? Hseg' Hrest']; subst.
  inversion Hval as [|? ? Hseg'' Hrest'']; subst.
  assert (scanRunes (Scanner ps "" false) seg = Scanner ps seg false
          /\ seg <> ""
          \/ scanRunes (Scanner ps "" false) seg = Scanner (ps ++ [seg]) "" false)
    as Hscan.
  { unfold wellFormedPart in Hseg. apply orb_true_iff in Hseg as [Hkey | Hidx].
    - left. unfold isKeySegment in Hkey. apply andb_true_iff in Hkey as [Hne Hfree].
      unfold rejoinable in Hseg'. rewrite (bracketFree_HasPrefix _ Hfree) in Hseg'.
      simpl in Hseg'. rewrite scanRunes_plain by done. split; [done |].
      by destruct seg.
    - right. apply isIndexSegment_inv in Hidx as (c & -> & Hc).
      apply (proj1 (ValidString_bracketed c)) in Hseg''.
      by rewrite scanRunes_bracketed. }
  destruct rest as [|seg' rest].
  - change (Join [seg]) with seg. unfold tokens.
    destruct Hscan as [[-> Hne] | ->]; simpl; [by destruct seg | done].
  - change (Join (seg :: seg' :: rest))
      with (seg +:+ String "." (Join (seg' :: rest))).
    specialize (IH (ps ++ [seg]) Hrest Hrest' Hrest''). rewrite <- app_assoc in IH.
    unfold tokens in *. rewrite scanRunes_app, scanRunes_cons by done.
    destruct Hscan as [[-> Hne] | ->]; rewrite scanRune_dot.
    + destruct seg; [done | exact IH].
    + exact IH.
Qed.

(** C9, as stated, fails: the first segment of ["[a.b[c]"] is ["a.b"],
    which scanned again gives two segments. *)
Lemma parsePath_rejoin_counterexample :
  parsePath "[a.b[c]" = ["a.b"; "[c]"]
  /\ take 1 (parsePath "[a.b[c]") = ["a.b"]
  /\ parsePath (Join (take 1 (parsePath "[a.b[c]"))) = ["a"; "b"].
Proof. repeat split. Qed.

(** C9, amended. For every path and every prefix of its segments in which
    no key segment holds a ["."], joining the prefix by ["."] and
    tokenizing the result gives that prefix again. *)
Theorem parsePath_rejoin_stable (path : string) (n : nat) :
  forallb rejoinable (take n (parsePath path)) = true ->
  parsePath (Join (take n (parsePath path))) = take n (parsePath path).
Proof.
  intros Hrj. rewrite parsePath_tokens, tokens_Join; [done | | |].
  - apply Forall_take, parsePath_wellFormed.
  - apply Forall_forall. intros part Hin%list_elem_of_In.
    by apply (proj1 (forallb_forall _ _) Hrj).
  - apply Forall_take, parsePath_valid.
Qed.

Lemma parsePath_rejoin_stable_witness :
  parsePath (Join (take 2 (parsePath "user.items[0].name")))
  = take 2 (parsePath "user.items[0].name").
Proof. apply parsePath_rejoin_stable. reflexivity. Defined.

(** ** Induction on trees *)

Lemma vsize_elem_of (l : list value) (x : value) :
  x ∈ l -> (vsize x <= foldr (fun x acc => vsize x + acc) O l)%nat.
Proof.
  induction 1; simpl.
  - apply Nat.le_add_r.
  - etrans; [eassumption | apply Nat.le_add_l].
Qed.

Lemma vsize_lookup (m : gmap string value) (key : string) (x : value) :
  m !! key = Some x -> (vsize x < vsize (VMap m))%nat.
Proof.
  intros Hx%elem_of_map_to_list. simpl. rewrite map_fold_foldr.
  apply Nat.lt_succ_r.
  induction (map_to_list m) as [|[key' x'] l IH]; [by apply elem_of_nil in Hx |].
  apply elem_of_cons in Hx as [[= -> ->] | Hx]; simpl.
  - apply Nat.le_add_r.
  - etrans; [by apply IH | apply Nat.le_add_l].
Qed.

Lemma value_tree_ind (P : value -> Prop) :
  P VNil ->
  (forall b, P (VBool b)) ->
  (forall f, P (VFloat64 f)) ->
  (forall s, P (VString s)) ->
  (forall m : gmap string value,
      (forall key x, m !! key = Some x -> P x) -> P (VMap m)) ->
  (forall l : list value, Forall P l -> P (VSlice l)) ->
  forall val, P val.
Proof.
  intros Hnil Hbool Hfloat Hstring Hmap Hslice val.
  assert (forall n val, (vsize val < n)%nat -> P val) as Hsize.
  { clear val. induction n as [|n IH]; intros val Hn; [by apply Nat.nlt_0_r in Hn |].
    destruct val; auto.
    - apply Hmap. intros key x Hx. apply IH.
      eapply Nat.lt_le_trans; [by eapply vsize_lookup | by apply Nat.lt_succ_r].
    - apply Hslice, Forall_forall. intros x Hx. apply IH.
      eapply Nat.le_lt_trans; [by apply vsize_elem_of | by apply Nat.succ_lt_mono]. }
  by apply (Hsize (S (vsize val))), Nat.lt_succ_diag_r.
Qed.

(** ** Claims on the finder *)

Section FinderProperties.
Context {lib : Library}.

Lemma matchesOptions_noOptions (val : value) (key : string) :
  matchesOptions val key (Some noOptions) = true.
Proof. reflexivity. Qed.

(** Ranging over the maps in one and the same order, the finder without
    a filter appends what [getAllPathsRecursive] appends. *)
Lemma findPathsRecursive_noOptions (data : value) :
  forall (currentPath : string) (paths : list string),
    findPathsRecursive data currentPath (Some noOptions) paths
    = (getAllPathsRecursive data currentPath paths, None).
Proof.
  induction data as [| | | |m IH|l IH] using value_tree_ind;
    intros currentPath paths; try reflexivity.
  - simpl. rewrite !map_fold_foldr.
    assert (Forall (fun kx => m !! kx.1 = Some kx.2) (map_to_list m)) as Hin.
    { apply Forall_forall. intros [key x]. apply elem_of_map_to_list. }
    induction Hin as [|[key x] entries Hx _ IHentries]; [done |].
    simpl in *. rewrite IHentries. by rewrite (IH key x Hx).
  - simpl. generalize O. revert paths.
    induction IH as [|x rest Hx _ IHrest]; intros paths i; [done |].
    by rewrite Hx, IHrest.
Qed.

(** C1, amended. With no filter set (and with a nil options pointer, which
    [FindPaths] replaces by the zero value) the match predicate is true at
    every node and [FindPaths] returns every path of the tree and no
    error: the paths [GetAllPaths] returns, each as many times, in an
    order that is that of [GetAllPaths] only up to the order in which
    each of the two calls ranges over the maps. *)
Theorem FindPaths_noOptions (data : value) :
  (forall (val : value) (key : string),
      matchesOptions val key (Some noOptions) = true)
  /\ (FindPaths data (Some noOptions)).1 ≡ₚ GetAllPaths data
  /\ (FindPaths data (Some noOptions)).2 = None
  /\ (FindPaths data None).1 ≡ₚ GetAllPaths data
  /\ (FindPaths data None).2 = None.
Proof.
  split; [done |]. unfold FindPaths, GetAllPaths.
  by rewrite findPathsRecursive_noOptions.
Qed.

End FinderProperties.

(** C1, as stated, fails: with no filter set every node matches, and
    [FindPaths] returns the path of the one entry of this tree. *)
Lemma FindPaths_noOptions_counterexample :
  @matchesOptions literalLibrary VNil "a" (Some noOptions) = true
  /\ @FindPaths literalLibrary (VMap {[ "a" := VNil ]}) (Some noOptions)
     = (["a"], None).
Proof. split; reflexivity. Qed.

(** C3. The code departs from the claim here: [findPathsRecursive] tests
    an element of a slice under the empty key, for which [matchesOptions]
    skips the key pattern, so that with only a key pattern set every
    element of every slice matches.  On the document of the claim
    [FindPaths] returns ["user.items[0]"] next to the two paths the claim
    lists, whatever the regular-expression library answers. *)
Theorem FindPaths_KeyPattern_matches_slice_elements :
  (forall (lib : Library) (val : value) (pattern : string),
      matchesOptions val "" (Some (keyOptions pattern)) = true)
  /\ (forall lib : Library,
      "user.items[0]" ∈ (FindPaths userTree (Some (keyOptions "name"))).1)
  /\ @FindPaths literalLibrary userTree (Some (keyOptions "name"))
     = (["user.name"; "user.items[0]"; "user.items[0].name"], None).
Proof.
  split; [| split].
  - intros lib val pattern. unfold matchesOptions; simpl.
    by rewrite andb_false_r.
  - intros [ms ff mar].
    assert (FindPaths userTree (Some (keyOptions "name"))
            = ((if ms "name" "user" then ["user"] else [])
                 ++ (if ms "name" "name" then ["user.name"] else [])
                 ++ (if ms "name" "items" then ["user.items"] else [])
                 ++ ["user.items[0]"]
                 ++ (if ms "name" "name" then ["user.items[0].name"] else []),
               None)) as ->.
    { vm_compute. by destruct (ms _ _), (ms _ _), (ms _ _). }
    simpl. set_solver.
  - reflexivity.
Qed.

(** ** The mutator *)

Lemma findInElements_Some (v : list value) (key : string) (j0 j : nat) (x : value) :
  findInElements v key j0 = Some (j, x) ->
  exists k itemMap,
    j = (j0 + k)%nat /\ v !! k = Some (VMap itemMap) /\ itemMap !! key = Some x.
Proof.
  revert j0. induction v as [|item rest IH]; intros j0; [done |]. simpl.
  assert (findInElements rest key (S j0) = Some (j, x) ->
          exists k itemMap,
            j = (j0 + k)%nat /\ (item :: rest) !! k = Some (VMap itemMap)
            /\ itemMap !! key = Some x) as Hrest.
  { intros (k & itemMap & -> & Hk & Hx)%IH. exists (S k), itemMap.
    split; [lia | done]. }
  destruct item; try done.
  destruct (m !! key) as [val|] eqn:Hval; [| done].
  intros [= <- <-]. exists O, m. split; [lia | done].
Qed.

(** Writing back what the traversal found changes nothing. *)
Lemma traverse_assign_same (data : value) (parts : list string) (i : nat)
    (place : list selector) (found : value) :
  traverse data parts i = Ok (place, found) -> assign data place found = data.
Proof.
  revert data i place. induction parts as [|part rest IH]; intros data i place.
  { by intros [= <- <-]. }
  simpl. destruct data; try done.
  - destruct (parsePart part) as [[[key index] isArray]| |]; unbind; try done.
    destruct isArray; [done |]. destruct (m !! key) as [next|] eqn:Hnext; [| done].
    destruct (traverse next rest (S i)) as [[place' found']| |] eqn:Hrest;
      unbind; try done.
    intros [= <- <-]. simpl. rewrite Hnext, (IH _ _ _ Hrest).
    by rewrite insert_id.
  - destruct (parsePart part) as [[[key index] isArray]| |]; unbind; try done.
    destruct isArray.
    + destruct ((index <? 0) || (index >=? Z.of_nat (length l))); [done |].
      destruct (l !! Z.to_nat index) as [next|] eqn:Hnext; [| done].
      destruct (traverse next rest (S i)) as [[place' found']| |] eqn:Hrest;
        unbind; try done.
      intros [= <- <-]. simpl. rewrite Hnext, (IH _ _ _ Hrest).
      by rewrite list_insert_id.
    + destruct (findInElements l key 0) as [[j next]|] eqn:Hfind; [| done].
      destruct (traverse next rest (S i)) as [[place' found']| |] eqn:Hrest;
        unbind; try done.
      intros [= <- <-].
      apply findInElements_Some in Hfind as (k & itemMap & -> & Hk & Hnext).
      simpl. rewrite Hk, Hnext, (IH _ _ _ Hrest).
      by rewrite insert_id, list_insert_id.
Qed.

Lemma navigate_assign_same (data : value) (path : string)
    (place : list selector) (found : value) :
  navigate data path = Ok (place, found) -> assign data place found = data.
Proof.
  unfold navigate. destruct (decide (path = "")).
  - by intros [= <- <-].
  - apply traverse_assign_same.
Qed.

Lemma parsePath_nonempty (path : string) :
  parsePath path <> [] -> path <> "".
Proof. by intros H ->. Qed.

(** [SetValueByPath] on a path of at least one segment: the parent is the
    root itself when the path has a single segment. *)
Lemma SetValueByPath_unfold (data : value) (path : string) (val : value)
    (pre : list string) (last : string) :
  parsePath path = pre ++ [last] ->
  SetValueByPath data path val =
    match navigate data (Join pre) with
    | Ok (place, parent) =>
        let '(parent', r) := setValueAtPath parent last val in
        (assign data place parent', r)
    | Err e => (data, Err (ErrParentPath (Join pre) e))
    | Panic => (data, Panic)
    end.
Proof.
  intros Hparts. unfold SetValueByPath.
  destruct (decide (path = "")) as [-> | _]; [by destruct pre |].
  rewrite Hparts. destruct pre as [|part pre].
  - simpl. by destruct (setValueAtPath data last val).
  - assert (removelast ((part :: pre) ++ [last]) = part :: pre) as Hinit
      by apply removelast_last.
    assert (List.last ((part :: pre) ++ [last]) "" = last) as Hlast
      by apply last_last.
    remember ((part :: pre) ++ [last]) as parts eqn:Heq.
    destruct parts as [|a [|b parts]]; [done | by destruct pre |].
    by rewrite Hinit, Hlast.
Qed.

(** Where [setValueAtPath] does not succeed it assigns nothing. *)
Lemma setValueAtPath_unchanged (data : value) (part : string) (val : value)
    (data' : value) (r : result unit) :
  setValueAtPath data part val = (data', r) -> r <> Ok () -> data' = data.
Proof.
  unfold setValueAtPath.
  destruct (parsePart part) as [[[key index] isArray]| |];
    [| by intros [= <- <-] ..].
  destruct data; try by intros [= <- <-].
  - destruct isArray; by intros [= <- <-].
  - destruct isArray; [| by intros [= <- <-]].
    destruct ((index <? 0) || (index >=? Z.of_nat (length l)));
      by intros [= <- <-].
Qed.

Lemma SetValueByPath_unchanged (data : value) (path : string) (val : value)
    (data' : value) (r : result unit) :
  SetValueByPath data path val = (data', r) -> r <> Ok () -> data' = data.
Proof.
  destruct (parsePath path) as [|part parts] eqn:Hparts.
  { unfold SetValueByPath. rewrite Hparts.
    destruct (decide (path = "")); by intros [= <- <-]. }
  destruct (exists_last (l := part :: parts)) as (pre & last & Hsplit); [done |].
  rewrite Hsplit in Hparts. rewrite (SetValueByPath_unfold _ _ _ _ _ Hparts).
  destruct (navigate data (Join pre)) as [[place parent]| |] eqn:Hnav;
    [| by intros [= <- <-] ..].
  destruct (setValueAtPath parent last val) as [parent' r'] eqn:Hset.
  intros [= <- <-] Hr.
  rewrite (setValueAtPath_unchanged _ _ _ _ _ Hset Hr).
  by eapply navigate_assign_same.
Qed.

(** C5. An index-only segment out of the bounds of the slice it is applied
    to makes [setValueAtPath], and [SetValueByPath] through any parent
    path, return the index-out-of-range error with the tree as it was.
    [setValueAtPath] never changes the length of a slice; a parent path
    that does not resolve, or resolves to a scalar, is an error; and every
    error of [SetValueByPath] leaves the tree unchanged. *)
Theorem SetValueByPath_index_out_of_range :
  (forall (v : list value) (part : string) (val : value) (index : Z),
      parsePart part = Ok ("", index, true) ->
      index < 0 \/ Z.of_nat (length v) <= index ->
      setValueAtPath (VSlice v) part val
      = (VSlice v, Err (ErrSetIndexOutOfRange index)))
  /\ (forall (data : value) (path : string) (val : value) (pre : list string)
             (last : string) (place : list selector) (v : list value) (index : Z),
      parsePath path = pre ++ [last] ->
      navigate data (Join pre) = Ok (place, VSlice v) ->
      parsePart last = Ok ("", index, true) ->
      index < 0 \/ Z.of_nat (length v) <= index ->
      SetValueByPath data path val = (data, Err (ErrSetIndexOutOfRange index)))
  /\ (forall (v : list value) (part : string) (val data' : value) (r : result unit),
      setValueAtPath (VSlice v) part val = (data', r) ->
      exists v', data' = VSlice v' /\ length v' = length v)
  /\ (forall (data : value) (path : string) (val : value) (pre : list string)
             (last : string) (err : error),
      parsePath path = pre ++ [last] ->
      navigate data (Join pre) = Err err ->
      SetValueByPath data path val = (data, Err (ErrParentPath (Join pre) err)))
  /\ (forall (data : value) (path : string) (val : value) (pre : list string)
             (last : string) (place : list selector) (parent : value),
      parsePath path = pre ++ [last] ->
      navigate data (Join pre) = Ok (place, parent) ->
      (forall m, parent <> VMap m) -> (forall v, parent <> VSlice v) ->
      SetValueByPath data path val = (data, Err (ErrSetOnType parent)))
  /\ (forall (data : value) (path : string) (val data' : value) (err : error),
      SetValueByPath data path val = (data', Err err) -> data' = data).
Proof.
  assert (forall (v : list value) (part : string) (val : value) (index : Z),
      parsePart part = Ok ("", index, true) ->
      index < 0 \/ Z.of_nat (length v) <= index ->
      setValueAtPath (VSlice v) part val
      = (VSlice v, Err (ErrSetIndexOutOfRange index))) as Hset.
  { intros v part val index Hpart Hrange. unfold setValueAtPath. rewrite Hpart.
    destruct (index <? 0) eqn:Hlo; [done |].
    destruct (index >=? Z.of_nat (length v)) eqn:Hhi; [done | lia]. }
  split; [exact Hset |]. split; [| split; [| split; [| split]]].
  - intros data path val pre last place v index Hparts Hnav Hpart Hrange.
    rewrite (SetValueByPath_unfold _ _ _ _ _ Hparts), Hnav.
    rewrite (Hset _ _ _ _ Hpart Hrange).
    f_equal. by eapply navigate_assign_same.
  - intros v part val data' r. unfold setValueAtPath.
    destruct (parsePart part) as [[[key index] isArray]| |];
      [| intros [= <- <-]; eauto ..].
    destruct isArray; [| intros [= <- <-]; eauto].
    destruct ((index <? 0) || (index >=? Z.of_nat (length v)));
      intros [= <- <-]; eauto.
    eexists; split; [done |]. apply length_insert.
  - intros data path val pre last err Hparts Hnav.
    by rewrite (SetValueByPath_unfold _ _ _ _ _ Hparts), Hnav.
  - intros data path val pre last place parent Hparts Hnav Hmap Hslice.
    rewrite (SetValueByPath_unfold _ _ _ _ _ Hparts), Hnav.
    assert (wellFormedPart last = true) as Hwf.
    { pose proof (parsePath_wellFormed path) as Hall. rewrite Hparts in Hall.
      apply Forall_app in Hall as [_ Hall]. by inversion Hall. }
    destruct (parsePart_wellFormed _ Hwf) as (key & index & isArray & Hpart).
    unfold setValueAtPath. rewrite Hpart.
    destruct parent; try (f_equal; by eapply navigate_assign_same).
    + by destruct (Hmap m).
    + by destruct (Hslice l).
  - intros data path val data' err Hset'.
    by apply (SetValueByPath_unchanged _ _ _ _ _ Hset').
Qed.

Lemma SetValueByPath_index_out_of_range_witness :
  SetValueByPath (VMap {[ "a" := VSlice [VNil] ]}) "a[3]" (VBool true)
  = (VMap {[ "a" := VSlice [VNil] ]}, Err (ErrSetIndexOutOfRange 3)).
Proof.
  apply (proj1 (proj2 SetValueByPath_index_out_of_range)
           _ "a[3]" _ ["a"] "[3]" [AtKey "a"] [VNil] 3).
  - reflexivity.
  - reflexivity.
  - reflexivity.
  - right. simpl. lia.
Defined.

Lemma findInElements_cons (item : value) (rest : list value) (key : string) (j : nat) :
  findInElements (item :: rest) key j =
  match lookupIn item key with
  | Some val => Some (j, val)
  | None => findInElements rest key (S j)
  end.
Proof. by destruct item. Qed.

Lemma findInElements_insert (v : list value) (key : string) (j0 k : nat)
    (itemMap : gmap string value) (x y : value) :
  v !! k = Some (VMap itemMap) ->
  findInElements v key j0 = Some ((j0 + k)%nat, x) ->
  findInElements (<[k := VMap (<[key := y]> itemMap)]> v) key j0
  = Some ((j0 + k)%nat, y).
Proof.
  revert j0 k. induction v as [|item rest IH]; intros j0 k Hk; [done |].
  rewrite findInElements_cons. destruct (lookupIn item key) as [val|] eqn:Hitem.
  - intros [= Hj <-]. assert (k = O) as -> by lia.
    injection Hk as ->. simpl. by rewrite lookup_insert_eq, Nat.add_0_r.
  - intros Hfind.
    pose proof (findInElements_Some _ _ _ _ _ Hfind) as (k' & _ & Hj & _).
    assert (k = S k') as -> by lia. simpl in Hk.
    change (<[S k' := ?u]> (item :: rest)) with (item :: <[k' := u]> rest).
    rewrite findInElements_cons, Hitem.
    replace (j0 + S k')%nat with (S j0 + k')%nat in * by lia.
    by apply IH.
Qed.

(** The traversal of the tree after an assignment at [place] follows the
    same steps and ends on what was assigned. *)
Lemma traverse_assign (data : value) (parts : list string) (i : nat)
    (place : list selector) (found new : value) :
  traverse data parts i = Ok (place, found) ->
  traverse (assign data place new) parts i = Ok (place, new).
Proof.
  revert data i place. induction parts as [|part rest IH]; intros data i place.
  { by intros [= <- <-]. }
  simpl. destruct data; try done.
  - destruct (parsePart part) as [[[key index] isArray]| |] eqn:Hpart;
      unbind; try done.
    destruct isArray; [done |]. destruct (m !! key) as [next|] eqn:Hnext; [| done].
    destruct (traverse next rest (S i)) as [[place' found']| |] eqn:Hrest;
      unbind; try done.
    intros [= <- <-]. simpl. rewrite Hnext. simpl. rewrite ?Hpart. unbind.
    by rewrite lookup_insert_eq, (IH _ _ _ Hrest).
  - destruct (parsePart part) as [[[key index] isArray]| |] eqn:Hpart;
      unbind; try done.
    destruct isArray.
    + destruct ((index <? 0) || (index >=? Z.of_nat (length l))) eqn:Hrange;
        [done |].
      destruct (l !! Z.to_nat index) as [next|] eqn:Hnext; [| done].
      destruct (traverse next rest (S i)) as [[place' found']| |] eqn:Hrest;
        unbind; try done.
      intros [= <- <-]. simpl. rewrite Hnext. simpl. rewrite ?Hpart. unbind.
      rewrite length_insert, Hrange.
      rewrite list_lookup_insert_eq by (by eapply lookup_lt_Some).
      by rewrite (IH _ _ _ Hrest).
    + destruct (findInElements l key 0) as [[j next]|] eqn:Hfind; [| done].
      destruct (traverse next rest (S i)) as [[place' found']| |] eqn:Hrest;
        unbind; try done.
      intros [= <- <-].
      pose proof (findInElements_Some _ _ _ _ _ Hfind)
        as (k & itemMap & -> & Hk & Hnext).
      simpl. rewrite Hk, Hnext. simpl. rewrite ?Hpart. unbind.
      rewrite (findInElements_insert _ _ 0 k _ _ _ Hk Hfind).
      by rewrite (IH _ _ _ Hrest).
Qed.

(** The parent path [SetValueByPath] joins and scans again leads where
    the segments themselves lead. *)
Lemma navigate_Join (data : value) (pre : list string) :
  Forall (fun part => wellFormedPart part = true) pre ->
  Forall (fun part => rejoinable part = true) pre ->
  Forall (fun part => ValidString part = true) pre ->
  navigate data (Join pre) = traverse data pre 0.
Proof.
  intros Hwf Hrj Hval. pose proof (tokens_Join pre [] Hwf Hrj Hval) as Htok.
  rewrite <- parsePath_tokens in Htok. simpl in Htok.
  unfold navigate. destruct (decide (Join pre = "")) as [Hempty | _].
  - rewrite Hempty in Htok. by rewrite <- Htok.
  - by rewrite Htok.
Qed.

(** C2, as stated, fails: the empty path resolves but cannot be set; a
    key found by searching the elements of a slice cannot be set either;
    and a dotted key kept as one segment by an unclosed bracket is split
    when the parent path is joined and scanned again.  In the three cases
    the tree is unchanged and [GetValueByPath] returns what it returned
    before. *)
Lemma SetValueByPath_round_trip_counterexample :
  GetValueByPath VNil "" = Ok VNil
  /\ SetValueByPath VNil "" (VBool true) = (VNil, Err ErrPathEmpty)
  /\ GetValueByPath (SetValueByPath VNil "" (VBool true)).1 "" = Ok VNil
  /\ (let data := VSlice [VMap {[ "name" := VString "x" ]}] in
      GetValueByPath data "name" = Ok (VString "x")
      /\ SetValueByPath data "name" VNil = (data, Err (ErrSetKeyOnArray "name"))
      /\ GetValueByPath (SetValueByPath data "name" VNil).1 "name"
         = Ok (VString "x"))
  /\ (let data := VMap {[ "a.b" := VSlice [VString "x"] ]} in
      GetValueByPath data "[a.b[0]" = Ok (VString "x")
      /\ SetValueByPath data "[a.b[0]" VNil
         = (data, Err (ErrParentPath "a.b" (ErrKeyNotFound "a" 0 "a")))
      /\ GetValueByPath (SetValueByPath data "[a.b[0]" VNil).1 "[a.b[0]"
         = Ok (VString "x")).
Proof. repeat split. Qed.

(** C2, amended. When [GetValueByPath] resolves a path that has at least
    one segment, whose key segments before the last hold no ["."], and
    whose last step is not the search of a key through the elements of a
    slice, [SetValueByPath] with any value succeeds and [GetValueByPath]
    on the tree after it returns exactly that value. *)
Theorem SetValueByPath_round_trip (data : value) (path : string)
    (val old : value) (pre : list string) (last : string) :
  GetValueByPath data path = Ok old ->
  parsePath path = pre ++ [last] ->
  forallb rejoinable pre = true ->
  (forall parent, GetValueByPath data (Join pre) = Ok parent ->
                  searchesElements parent last = false) ->
  exists data',
    SetValueByPath data path val = (data', Ok ())
    /\ GetValueByPath data' path = Ok val.
Proof.
  intros Hget Hparts Hrj Hdirect.
  assert (path <> "") as Hne by (apply parsePath_nonempty; rewrite Hparts; by destruct pre).
  assert (forall t, GetValueByPath t path
                    = '(_, found) ← traverse t (pre ++ [last]) 0; Ok found) as Hpath.
  { intros t. unfold GetValueByPath, navigate.
    destruct (decide (path = "")); [done | by rewrite Hparts]. }
  assert (navigate data (Join pre) = traverse data pre 0) as Hnav.
  { pose proof (parsePath_wellFormed path) as Hwf. rewrite Hparts in Hwf.
    apply Forall_app in Hwf as [Hwf _].
    pose proof (parsePath_valid path) as Hval. rewrite Hparts in Hval.
    apply Forall_app in Hval as [Hval _]. apply navigate_Join; [done | | done].
    apply Forall_forall. intros part Hin%list_elem_of_In.
    by apply (proj1 (forallb_forall _ _) Hrj). }
  rewrite Hpath, traverse_app in Hget.
  destruct (traverse data pre 0) as [[place parent]| |] eqn:Hpre; try done.
  specialize (Hdirect parent). unfold GetValueByPath in Hdirect.
  rewrite Hnav in Hdirect. specialize (Hdirect eq_refl).
  rewrite (SetValueByPath_unfold _ _ _ _ _ Hparts), Hnav.
  assert (exists parent',
             setValueAtPath parent last val = (parent', Ok ())
             /\ exists step, traverse parent' [last] (0 + length pre)
                             = Ok (step, val)) as (parent' & -> & step & Hlast).
  { unfold searchesElements in Hdirect. unfold setValueAtPath.
    simpl in Hget. destruct parent; try done.
    - destruct (parsePart last) as [[[key index] isArray]| |] eqn:Hpart;
        try done.
      unbind. destruct isArray; [done |]. eexists; split; [done |].
      simpl. rewrite Hpart. unbind. rewrite lookup_insert_eq. eauto.
    - destruct (parsePart last) as [[[key index] isArray]| |] eqn:Hpart;
        try done.
      unbind. unfold mbind, result_bind in Hget. simpl in Hget.
      destruct isArray; [| done].
      destruct ((index <? 0) || (index >=? Z.of_nat (length l))) eqn:Hrange;
        [done |].
      eexists; split; [done |].
      simpl. rewrite Hpart. unbind. rewrite length_insert, Hrange.
      apply orb_false_iff in Hrange as [Hlo Hhi].
      rewrite list_lookup_insert_eq by lia. eauto. }
  eexists; split; [done |].
  rewrite Hpath, traverse_app, (traverse_assign _ _ _ _ _ parent' Hpre).
  by rewrite Hlast.
Qed.

Lemma SetValueByPath_round_trip_witness :
  exists data',
    SetValueByPath userTree "user.items[0].name" (VString "y") = (data', Ok ())
    /\ GetValueByPath data' "user.items[0].name" = Ok (VString "y").
Proof.
  apply (SetValueByPath_round_trip userTree "user.items[0].name"
           (VString "y") (VString "x") ["user"; "items"; "[0]"] "name").
  - reflexivity.
  - reflexivity.
  - reflexivity.
  - intros parent [= <-]. reflexivity.
Defined.

(** ** Decimal indices *)

Lemma digit_cases (d : Z) :
  0 <= d <= 9 ->
  d = 0 \/ d = 1 \/ d = 2 \/ d = 3 \/ d = 4 \/ d = 5 \/ d = 6 \/ d = 7
  \/ d = 8 \/ d = 9.
Proof. lia. Qed.

Lemma digitValue_digitChar (d : Z) :
  0 <= d <= 9 -> digitValue (digitChar d) = Some d.
Proof. intros H%digit_cases. by repeat destruct H as [-> | H]; [..| subst]. Qed.

Lemma digitChar_plain (d : Z) :
  0 <= d <= 9 -> isDelimiter (digitChar d) = false.
Proof. intros H%digit_cases. by repeat destruct H as [-> | H]; [..| subst]. Qed.

Lemma parseDigits_app (s t : string) (acc : Z) :
  parseDigits (s +:+ t) acc =
  match parseDigits s acc with
  | Some n => parseDigits t n
  | None => None
  end.
Proof.
  revert acc. induction s as [|c s IH]; intros acc; [done |].
  rewrite append_cons. simpl. by destruct (digitValue c).
Qed.

Lemma formatDigits_acc (fuel : nat) (n : Z) (acc : string) :
  formatDigits fuel n acc = formatDigits fuel n "" +:+ acc.
Proof.
  revert n acc. induction fuel as [|fuel IH]; intros n acc; [done |]. simpl.
  destruct (n / 10 =? 0); [done |].
  by rewrite IH, (IH _ (String _ "")), append_assoc.
Qed.

Lemma parseDigits_formatDigits (fuel : nat) (n : Z) :
  0 <= n -> (Z.to_nat n < fuel)%nat ->
  parseDigits (formatDigits fuel n "") 0 = Some n.
Proof.
  revert n. induction fuel as [|fuel IH]; intros n Hn Hfuel; [lia |]. simpl.
  assert (0 <= n mod 10 <= 9) as Hd by (pose proof (Z.mod_pos_bound n 10); lia).
  pose proof (Z.div_mod n 10) as Hdiv.
  destruct (n / 10 =? 0) eqn:Hq.
  - simpl. rewrite digitValue_digitChar by done. f_equal. lia.
  - rewrite formatDigits_acc, parseDigits_app, IH by lia.
    simpl. rewrite digitValue_digitChar by done. f_equal. lia.
Qed.

Lemma formatDigits_plain (fuel : nat) (n : Z) (acc : string) :
  plain acc = true -> plain (formatDigits fuel n acc) = true.
Proof.
  revert n acc. induction fuel as [|fuel IH]; intros n acc Hacc; [done |]. simpl.
  assert (0 <= n mod 10 <= 9) as Hd by (pose proof (Z.mod_pos_bound n 10); lia).
  assert (plain (String (digitChar (n mod 10)) acc) = true) as Hacc'.
  { unfold plain in *. simpl. by rewrite digitChar_plain, Hacc. }
  destruct (n / 10 =? 0); [done | by apply IH].
Qed.

Lemma formatDigits_head (fuel : nat) (n : Z) (acc : string) :
  exists d rest, 0 <= d <= 9 /\ formatDigits (S fuel) n acc = String (digitChar d) rest.
Proof.
  revert n acc. induction fuel as [|fuel IH]; intros n acc.
  - exists (n mod 10), acc. split; [pose proof (Z.mod_pos_bound n 10); lia |].
    simpl. by destruct (n / 10 =? 0).
  - change (formatDigits (S (S fuel)) n acc)
      with (let acc' := String (digitChar (n mod 10)) acc in
            if n / 10 =? 0 then acc' else formatDigits (S fuel) (n / 10) acc').
    simpl. destruct (n / 10 =? 0); [| apply IH].
    exists (n mod 10), acc. split; [pose proof (Z.mod_pos_bound n 10); lia | done].
Qed.

Lemma Atoi_digits (d : Z) (rest : string) :
  0 <= d <= 9 ->
  Atoi (String (digitChar d) rest) =
  match parseDigits (String (digitChar d) rest) 0 with
  | Some n => if (minInt <=? n) && (n <=? maxInt) then Some n else None
  | None => None
  end.
Proof. intros H%digit_cases. by repeat destruct H as [-> | H]; [..| subst]. Qed.

Lemma Itoa_plain (i : nat) : plain (Itoa (Z.of_nat i)) = true.
Proof.
  unfold Itoa. destruct (Z.ltb_spec (Z.of_nat i) 0) as [Hneg | _]; [lia |].
  by apply formatDigits_plain.
Qed.

Lemma digitChar_ASCII (d : Z) : 0 <= d <= 9 -> isASCII (digitChar d) = true.
Proof. intros H%digit_cases. by repeat destruct H as [-> | H]; [..| subst]. Qed.

Lemma formatDigits_ASCII (fuel : nat) (n : Z) (acc : string) :
  allChars isASCII acc = true -> allChars isASCII (formatDigits fuel n acc) = true.
Proof.
  revert n acc. induction fuel as [|fuel IH]; intros n acc Hacc; [done |]. simpl.
  assert (0 <= n mod 10 <= 9) as Hd by (pose proof (Z.mod_pos_bound n 10); lia).
  assert (allChars isASCII (String (digitChar (n mod 10)) acc) = true) as Hacc'.
  { simpl. by rewrite digitChar_ASCII, Hacc. }
  destruct (n / 10 =? 0); [done | by apply IH].
Qed.

(** What [%d] prints for an index is ASCII. *)
Lemma Itoa_valid (i : nat) : ValidString (Itoa (Z.of_nat i)) = true.
Proof.
  apply ValidString_ASCII. unfold Itoa.
  destruct (Z.ltb_spec (Z.of_nat i) 0) as [Hneg | _]; [lia |].
  by apply formatDigits_ASCII.
Qed.

(** [strconv.Atoi] reads back what [%d] prints for an index. *)
Lemma Atoi_Itoa (i : nat) :
  Z.of_nat i <= maxInt -> Atoi (Itoa (Z.of_nat i)) = Some (Z.of_nat i).
Proof.
  intros Hmax. unfold Itoa. destruct (Z.ltb_spec (Z.of_nat i) 0) as [Hneg | _]; [lia |].
  destruct (formatDigits_head (Z.to_nat (Z.of_nat i)) (Z.of_nat i) "")
    as (d & rest & Hd & Heq).
  rewrite Heq, Atoi_digits, <- Heq by done.
  rewrite parseDigits_formatDigits by lia.
  assert (minInt <= Z.of_nat i) as Hmin by (unfold minInt; lia).
  by destruct (Z.leb_spec minInt (Z.of_nat i)), (Z.leb_spec (Z.of_nat i) maxInt);
    try lia.
Qed.

Lemma parsePart_indexPath (i : nat) :
  Z.of_nat i <= maxInt ->
  parsePart ("[" +:+ Itoa (Z.of_nat i) +:+ "]") = Ok ("", Z.of_nat i, true).
Proof.
  intros Hmax. rewrite parsePart_index.
  - by rewrite slice_bracketed, Atoi_Itoa.
  - apply isIndexSegment_bracketed, plain_bracketFree, Itoa_plain.
Qed.

(** ** Paths built by the finder *)

Lemma append_nonempty_r (s t : string) : t <> "" -> s +:+ t <> "".
Proof. by destruct s, t. Qed.

Lemma nonEmpty_true (s : string) : nonEmpty s = true <-> s <> "".
Proof. by destruct s. Qed.

Lemma validKey_inv (key : string) :
  validKey key = true -> key <> "" /\ plain key = true.
Proof.
  unfold validKey. rewrite andb_true_iff, nonEmpty_true. tauto.
Qed.

(** Extending a path by a key adds the key to its segments. *)
Lemma parsePath_keyPath (currentPath key : string) :
  closedPath currentPath = true -> validKey key = true ->
  ValidString key = true ->
  parsePath (keyPath currentPath key) = parsePath currentPath ++ [key]
  /\ closedPath (keyPath currentPath key) = true
  /\ keyPath currentPath key <> "".
Proof.
  intros Hclosed [Hne Hplain]%validKey_inv Hvalid.
  destruct currentPath as [|c cur].
  - change (keyPath "" key) with key.
    unfold parsePath, closedPath. rewrite scanRunes_plain by done. simpl.
    by destruct key.
  - change (keyPath (String c cur) key) with ((String c cur +:+ ".") +:+ key).
    set (path := String c cur) in *.
    assert (scanRunes (Scanner [] "" false) ((path +:+ ".") +:+ key)
            = Scanner (parsePath path) key false) as Hscan.
    { unfold parsePath, closedPath in *.
      rewrite append_assoc, append_cons, append_nil_l.
      rewrite scanRunes_app, scanRunes_cons by done.
      destruct (scanRunes (Scanner [] "" false) path) as [ps buf b].
      simpl in Hclosed. apply negb_true_iff in Hclosed as ->.
      rewrite scanRune_dot. by rewrite scanRunes_plain. }
    split; [| split]; [| | by apply append_nonempty_r].
    + unfold parsePath at 1. rewrite Hscan. simpl. by destruct key.
    + unfold closedPath. by rewrite Hscan.
Qed.

(** Extending a path by an index adds the bracketed index. *)
Lemma parsePath_indexPath (currentPath : string) (i : nat) :
  parsePath (indexPath currentPath i)
  = parsePath currentPath ++ ["[" +:+ Itoa (Z.of_nat i) +:+ "]"]
  /\ closedPath (indexPath currentPath i) = true
  /\ indexPath currentPath i <> "".
Proof.
  unfold indexPath, parsePath, closedPath.
  rewrite (scanRunes_app _ currentPath "[" (Itoa (Z.of_nat i) +:+ "]")) by done.
  destruct (scanRunes (Scanner [] "" false) currentPath) as [ps buf b].
  change (String "[" (?x +:+ "]")) with ("[" +:+ x +:+ "]").
  rewrite (scanRunes_bracketed ps buf b (Itoa (Z.of_nat i)))
    by (try apply plain_bracketFree; auto using Itoa_plain, Itoa_valid).
  split; [done |]. split; [done |]. by apply append_nonempty_r.
Qed.

(** ** The well-formedness of a tree and of its children *)

Lemma map_fold_andb (g : string -> value -> bool) (m : gmap string value) :
  map_fold (fun key x acc => g key x && acc) true m = true ->
  forall key x, m !! key = Some x -> g key x = true.
Proof.
  rewrite map_fold_foldr. intros Hall key x Hx%elem_of_map_to_list.
  induction (map_to_list m) as [|[key' x'] entries IH];
    [by apply elem_of_nil in Hx |].
  simpl in Hall. apply andb_true_iff in Hall as [Hhead Hall].
  apply elem_of_cons in Hx as [[= -> ->] | Hx]; auto.
Qed.

Lemma keysAre_lookup (P : string -> bool) (m : gmap string value)
    (key : string) (x : value) :
  keysAre P (VMap m) = true -> m !! key = Some x ->
  P key = true /\ keysAre P x = true.
Proof.
  simpl. intros Hall Hx. apply andb_true_iff.
  by apply (map_fold_andb (fun key x => P key && keysAre P x) m).
Qed.

Lemma lengthsFit_lookup (m : gmap string value) (key : string) (x : value) :
  lengthsFit (VMap m) = true -> m !! key = Some x -> lengthsFit x = true.
Proof.
  simpl. intros Hall Hx.
  by apply (map_fold_andb (fun _ x => lengthsFit x) m) with key.
Qed.

Lemma forallb_lookup {A} (f : A -> bool) (l : list A) (i : nat) (x : A) :
  forallb f l = true -> l !! i = Some x -> f x = true.
Proof.
  intros Hall Hx. apply (proj1 (forallb_forall f l) Hall).
  apply list_elem_of_In, list_elem_of_lookup. eauto.
Qed.

(** One more step of the traversal, into the entry of a map. *)
Lemma traverse_keyPath (root : value) (currentPath key : string)
    (place : list selector) (m : gmap string value) (x : value) :
  traverse root (parsePath currentPath) 0 = Ok (place, VMap m) ->
  closedPath currentPath = true -> validKey key = true ->
  ValidString key = true ->
  m !! key = Some x ->
  traverse root (parsePath (keyPath currentPath key)) 0
  = Ok (place ++ [AtKey key], x).
Proof.
  intros Htrav Hclosed Hkey Hvalid Hx.
  destruct (parsePath_keyPath _ _ Hclosed Hkey Hvalid) as (-> & _ & _).
  apply validKey_inv in Hkey as [_ Hplain%plain_bracketFree].
  rewrite traverse_app, Htrav. simpl. rewrite (parsePart_key _ Hplain).
  unbind. by rewrite Hx.
Qed.

(** One more step of the traversal, into the element of a slice. *)
Lemma traverse_indexPath (root : value) (currentPath : string) (i : nat)
    (place : list selector) (l : list value) (x : value) :
  traverse root (parsePath currentPath) 0 = Ok (place, VSlice l) ->
  Z.of_nat (length l) <= maxInt ->
  l !! i = Some x ->
  traverse root (parsePath (indexPath currentPath i)) 0
  = Ok (place ++ [AtIndex i], x).
Proof.
  intros Htrav Hfit Hx.
  destruct (parsePath_indexPath currentPath i) as (-> & _ & _).
  pose proof (lookup_lt_Some _ _ _ Hx) as Hlt.
  rewrite traverse_app, Htrav. simpl.
  rewrite parsePart_indexPath by lia. unbind.
  destruct (Z.ltb_spec (Z.of_nat i) 0); [lia |].
  destruct (Z.geb_spec (Z.of_nat i) (Z.of_nat (length l))); [lia |].
  simpl. by rewrite Nat2Z.id, Hx.
Qed.

(** Every path [getAllPathsRecursive] appends resolves against the root,
    when it is called on the subtree its current path resolves to. *)
Lemma getAllPathsRecursive_resolves (root sub : value) :
  forall (currentPath : string) (paths : list string) (place : list selector),
    keysAre validKey sub = true -> keysAre ValidString sub = true ->
    lengthsFit sub = true ->
    closedPath currentPath = true ->
    traverse root (parsePath currentPath) 0 = Ok (place, sub) ->
    forall path, path ∈ getAllPathsRecursive sub currentPath paths ->
                 path ∈ paths \/ resolves root path.
Proof.
  induction sub as [| | | |m IH|l IH] using value_tree_ind;
    intros currentPath paths place Hkeys Hvalid Hfit Hclosed Htrav path Hpath;
    try (by left).
  - simpl in Hpath. rewrite map_fold_foldr in Hpath.
    assert (Forall (fun kx => m !! kx.1 = Some kx.2) (map_to_list m)) as Hin.
    { apply Forall_forall. intros [key x]. apply elem_of_map_to_list. }
    revert path Hpath.
    induction Hin as [|[key x] entries Hx _ IHentries]; intros path Hpath;
      [by left |].
    simpl in Hx, Hpath.
    destruct (keysAre_lookup _ _ _ _ Hkeys Hx) as [Hkey Hkeys'].
    destruct (keysAre_lookup _ _ _ _ Hvalid Hx) as [Hutf Hvalid'].
    pose proof (lengthsFit_lookup _ _ _ Hfit Hx) as Hfit'.
    destruct (parsePath_keyPath _ _ Hclosed Hkey Hutf) as (_ & Hclosed' & Hne).
    pose proof (traverse_keyPath _ _ _ _ _ _ Htrav Hclosed Hkey Hutf Hx) as Htrav'.
    apply (IH key x Hx _ _ _ Hkeys' Hvalid' Hfit' Hclosed' Htrav') in Hpath
      as [Hpath | Hpath]; [| by right].
    apply elem_of_app in Hpath as [Hpath | ->%list_elem_of_singleton];
      [by apply IHentries |].
    right. split; [done | eauto].
  - simpl in Hkeys, Hvalid, Hfit, Hpath. apply andb_true_iff in Hfit as [Hlen Hfit].
    apply Z.leb_le in Hlen.
    match type of Hpath with
    | _ ∈ ?loop _ _ _ =>
        assert (forall rest i paths,
                   (forall k x, rest !! k = Some x -> l !! (i + k)%nat = Some x) ->
                   forall path, path ∈ loop rest i paths ->
                                path ∈ paths \/ resolves root path) as Hloop
    end.
    { clear Hpath path paths. induction rest as [|x rest IHrest];
        intros i paths Hrest path Hpath; [by left |].
      pose proof (Hrest O x eq_refl) as Hx. rewrite Nat.add_0_r in Hx.
      destruct (parsePath_indexPath currentPath i) as (_ & Hclosed' & Hne).
      pose proof (traverse_indexPath _ _ _ _ _ _ Htrav Hlen Hx) as Htrav'.
      apply IHrest in Hpath.
      2: { intros k y Hy. replace (S i + k)%nat with (i + S k)%nat by lia.
           by apply Hrest. }
      destruct Hpath as [Hpath | Hpath]; [| by right].
      apply (proj1 (Forall_lookup _ _) IH _ _ Hx _ _ _
               (forallb_lookup _ _ _ _ Hkeys Hx) (forallb_lookup _ _ _ _ Hvalid Hx)
               (forallb_lookup _ _ _ _ Hfit Hx)
               Hclosed' Htrav') in Hpath as [Hpath | Hpath]; [| by right].
      apply elem_of_app in Hpath as [Hpath | ->%list_elem_of_singleton];
        [by left |].
      right. split; [done | eauto]. }
    by apply (Hloop l O paths).
Qed.

(** C10, as stated, fails: a key with a ["]"] has neither ["."] nor
    ["["], and its path, scanned, loses the ["]"]; the path of an empty
    key at the root is the empty root path; and the path of a key that is
    the one byte [0xFF] is scanned into the segment [U+FFFD], which is
    not that key. *)
Lemma GetAllPaths_resolve_counterexample :
  keysAre dotOpenFree (VMap {[ "a]" := VNil ]}) = true
  /\ GetAllPaths (VMap {[ "a]" := VNil ]}) = ["a]"]
  /\ HasPath (VMap {[ "a]" := VNil ]}) "a]" = Ok false
  /\ keysAre dotOpenFree (VMap {[ "" := VNil ]}) = true
  /\ GetAllPaths (VMap {[ "" := VNil ]}) = [""]
  /\ (let key := String (ascii_of_N 255) "" in
      keysAre dotOpenFree (VMap {[ key := VNil ]}) = true
      /\ GetAllPaths (VMap {[ key := VNil ]}) = [key]
      /\ parsePath key = [RuneError]
      /\ HasPath (VMap {[ key := VNil ]}) key = Ok false).
Proof. repeat split. Qed.

(** C10, amended. For every tree whose keys, at all depths, are not
    empty, are valid UTF-8 and hold none of ["."], ["["] and ["]"] (and
    whose slices have a length that is an [int], as every Go slice has),
    each path [GetAllPaths] returns resolves against the tree, [HasPath]
    is true on it, and it is not the empty root path. *)
Theorem GetAllPaths_resolve (data : value) (path : string) :
  keysAre validKey data = true ->
  keysAre ValidString data = true ->
  lengthsFit data = true ->
  path ∈ GetAllPaths data ->
  HasPath data path = Ok true /\ path <> "".
Proof.
  intros Hkeys Hvalid Hfit Hpath.
  apply (getAllPathsRecursive_resolves data data "" [] [] Hkeys Hvalid Hfit
           eq_refl eq_refl)
    in Hpath as [Hpath | [Hne (place & found & Htrav)]];
    [by apply elem_of_nil in Hpath |].
  split; [| done]. unfold HasPath, GetValueByPath, navigate.
  destruct (decide (path = "")); [done |]. by rewrite Htrav.
Qed.

Lemma GetAllPaths_resolve_witness :
  HasPath userTree "user.items[0].name" = Ok true /\ "user.items[0].name" <> "".
Proof.
  apply GetAllPaths_resolve.
  - vm_compute. reflexivity.
  - vm_compute. reflexivity.
  - vm_compute. reflexivity.
  - apply list_elem_of_In. vm_compute. auto 10.
Defined.

(** * Further properties *)

(** ** The tokenizer as an inverse of [strings.Join] *)

Lemma isSegment_inv (part : string) :
  isSegment part = true ->
  wellFormedPart part = true /\ rejoinable part = true.
Proof.
  unfold isSegment, wellFormedPart, rejoinable, isKeySegment, validKey.
  rewrite !orb_true_iff, !andb_true_iff. intros [[Hne Hplain] | Hidx].
  - split; [left | by right]. by rewrite Hne, (plain_bracketFree _ Hplain).
  - split; [by right | left].
    unfold isIndexSegment in Hidx. rewrite !andb_true_iff in Hidx. tauto.
Qed.

(** X1. Keys without delimiters and bracketed indices, written in valid
    UTF-8 and joined by ["."], are tokenized back into the same list of
    segments. *)
Theorem parsePath_Join (segs : list string) :
  forallb isSegment segs = true ->
  forallb ValidString segs = true ->
  parsePath (Join segs) = segs.
Proof.
  intros Hsegs Hvalid.
  assert (Forall (fun part => isSegment part = true) segs) as Hall.
  { apply Forall_forall. intros part Hin%list_elem_of_In.
    by apply (proj1 (forallb_forall _ _) Hsegs). }
  rewrite parsePath_tokens, tokens_Join; [done | | |].
  - eapply Forall_impl; [exact Hall |]. intros part Hpart.
    by destruct (isSegment_inv _ Hpart).
  - eapply Forall_impl; [exact Hall |]. intros part Hpart.
    by destruct (isSegment_inv _ Hpart).
  - apply Forall_forall. intros part Hin%list_elem_of_In.
    by apply (proj1 (forallb_forall _ _) Hvalid).
Qed.

Lemma parsePath_Join_witness :
  parsePath (Join ["user"; "items"; "[0]"; "[a.b]"; "name"])
  = ["user"; "items"; "[0]"; "[a.b]"; "name"].
Proof. apply parsePath_Join; reflexivity. Defined.

(** The segments of [p1.p2], for [p1] ending outside brackets. *)
Lemma parsePath_dot (p1 p2 : string) :
  closedPath p1 = true ->
  parsePath (p1 +:+ "." +:+ p2) = parsePath p1 ++ parsePath p2.
Proof.
  intros Hclosed. unfold closedPath in Hclosed. unfold parsePath.
  rewrite append_cons, append_nil_l, scanRunes_app, scanRunes_cons by done.
  destruct (scanRunes (Scanner [] "" false) p1) as [ps buf b].
  simpl in Hclosed. apply negb_true_iff in Hclosed as ->.
  rewrite scanRune_dot.
  apply (tokens_frame (flush ps buf) "" false p2).
Qed.

(** X2. Outside brackets a ["."] only separates: the segments of
    [p1.p2] are those of [p1] followed by those of [p2], so that leading,
    trailing and repeated dots add nothing; and a bracketed group of valid
    UTF-8 after any text is one segment between the segments before and
    after it. *)
Theorem parsePath_concat (p1 p2 : string) :
  (closedPath p1 = true ->
   parsePath (p1 +:+ "." +:+ p2) = parsePath p1 ++ parsePath p2)
  /\ (forall c : string,
        bracketFree c = true -> ValidString c = true ->
        parsePath (p1 +:+ ("[" +:+ c +:+ "]") +:+ p2)
        = parsePath p1 ++ ["[" +:+ c +:+ "]"] ++ parsePath p2).
Proof.
  split; [apply parsePath_dot |].
  intros c Hc Hvalid. unfold parsePath.
  rewrite (scanRunes_app _ p1 "[" ((c +:+ "]") +:+ p2)) by done.
  change (String "[" ((c +:+ "]") +:+ p2)) with (("[" +:+ c +:+ "]") +:+ p2).
  rewrite scanRunes_app_valid by by apply ValidString_bracketed.
  destruct (scanRunes (Scanner [] "" false) p1) as [ps buf b].
  rewrite scanRunes_bracketed by done. simpl.
  etrans; [apply (tokens_frame (flush ps buf ++ ["[" +:+ c +:+ "]"]) "" false p2) |].
  by rewrite <- app_assoc.
Qed.

Lemma parsePath_concat_witness :
  parsePath ("a[0]" +:+ "." +:+ ".b.") = parsePath "a[0]" ++ parsePath ".b."
  /\ parsePath ("a." +:+ ("[" +:+ "x.y" +:+ "]") +:+ "b")
     = parsePath "a." ++ ["[" +:+ "x.y" +:+ "]"] ++ parsePath "b".
Proof.
  split.
  - apply (proj1 (parsePath_concat "a[0]" ".b.")). reflexivity.
  - apply (proj2 (parsePath_concat "a." "b")); reflexivity.
Defined.

(** X21. Whatever the bytes of the path, every segment [parsePath]
    returns is valid UTF-8: the loop ranges over runes and writes each
    rune back, so that a byte that is not part of a valid sequence is
    emitted as [U+FFFD].  The path of the one byte [0xFF] has that rune
    as its one segment, and a path has the segments of the path with its
    invalid bytes so replaced. *)
Theorem parsePath_emits_valid_UTF8 (path : string) :
  forallb ValidString (parsePath path) = true
  /\ parsePath (String (ascii_of_N 255) "") = [RuneError]
  /\ parsePath (toValid path) = parsePath path.
Proof.
  split; [| split; [reflexivity |]].
  - apply forallb_forall. intros part Hin%list_elem_of_In.
    by apply (proj1 (Forall_forall _ _) (parsePath_valid path)).
  - unfold parsePath, scanRunes. by rewrite runes_toValid.
Qed.

(** ** The navigator, path by path *)

Lemma GetValueByPath_traverse (data : value) (path : string) :
  GetValueByPath data path =
  match traverse data (parsePath path) 0 with
  | Ok (_, found) => Ok found
  | Err e => Err e
  | Panic => Panic
  end.
Proof.
  unfold GetValueByPath, navigate. by destruct (decide (path = "")) as [-> |].
Qed.

(** The position the loop starts from only shows in its errors. *)
Lemma traverse_shift (data : value) (parts : list string) (i j : nat)
    (r : list selector * value) :
  traverse data parts i = Ok r -> traverse data parts j = Ok r.
Proof.
  revert data i j r. induction parts as [|part rest IH]; intros data i j r; [done |].
  simpl. destruct data; try done.
  - destruct (parsePart part) as [[[key index] isArray]| |]; unbind; try done.
    destruct isArray; [done |]. destruct (m !! key) as [next|]; [| done].
    destruct (traverse next rest (S i)) as [[place found]| |] eqn:Hrest;
      unbind; try done.
    by rewrite (IH _ _ (S j) _ Hrest).
  - destruct (parsePart part) as [[[key index] isArray]| |]; unbind; try done.
    destruct isArray.
    + destruct ((index <? 0) || (index >=? Z.of_nat (length l))); [done |].
      destruct (l !! Z.to_nat index) as [next|]; [| done].
      destruct (traverse next rest (S i)) as [[place found]| |] eqn:Hrest;
        unbind; try done.
      by rewrite (IH _ _ (S j) _ Hrest).
    + destruct (findInElements l key 0) as [[k next]|]; [| done].
      destruct (traverse next rest (S i)) as [[place found]| |] eqn:Hrest;
        unbind; try done.
      by rewrite (IH _ _ (S j) _ Hrest).
Qed.

(** X3. Navigation composes along a ["."]: [p1.p2] resolves to [y]
    exactly when [p1] resolves to some [x] and [p2] resolves from [x] to
    [y]; and an error of [p1] is the error of [p1.p2]. *)
Theorem GetValueByPath_compose (data : value) (p1 p2 : string) :
  closedPath p1 = true ->
  (forall y, GetValueByPath data (p1 +:+ "." +:+ p2) = Ok y <->
             exists x, GetValueByPath data p1 = Ok x /\ GetValueByPath x p2 = Ok y)
  /\ (forall e, GetValueByPath data p1 = Err e ->
                GetValueByPath data (p1 +:+ "." +:+ p2) = Err e).
Proof.
  intros Hclosed. rewrite !GetValueByPath_traverse, (parsePath_dot _ _ Hclosed).
  rewrite traverse_app. split.
  - intros y. split.
    + destruct (traverse data (parsePath p1) 0) as [[place x]| |]; try done.
      destruct (traverse x (parsePath p2) _) as [[place' y']| |] eqn:Hp2; try done.
      intros [= <-]. exists x. split; [done |].
      by rewrite GetValueByPath_traverse, (traverse_shift _ _ _ 0 _ Hp2).
    + intros (x & Hx & Hy). rewrite GetValueByPath_traverse in Hy.
      destruct (traverse data (parsePath p1) 0) as [[place x']| |]; try done.
      injection Hx as ->.
      destruct (traverse x (parsePath p2) 0) as [[place' y']| |] eqn:Hp2; try done.
      by rewrite (traverse_shift _ _ _ (0 + length (parsePath p1)) _ Hp2).
  - intros e. by destruct (traverse data (parsePath p1) 0) as [[place x]| |].
Qed.

Lemma GetValueByPath_compose_witness :
  GetValueByPath userTree ("user.items[0]" +:+ "." +:+ "name") = Ok (VString "x")
  <-> exists x, GetValueByPath userTree "user.items[0]" = Ok x
                /\ GetValueByPath x "name" = Ok (VString "x").
Proof.
  apply (proj1 (GetValueByPath_compose userTree "user.items[0]" "name" eq_refl)).
Defined.

(** X4. A path that continues past a leaf fails at the first segment
    after it: on [nil] with the value-is-nil error, on a boolean, a
    number or a string with the cannot-traverse error, each naming that
    segment and its position. *)
Theorem GetValueByPath_past_leaf (data leaf : value) (p1 p2 : string)
    (part : string) (rest : list string) :
  closedPath p1 = true ->
  GetValueByPath data p1 = Ok leaf ->
  isLeaf leaf = true ->
  parsePath p2 = part :: rest ->
  GetValueByPath data (p1 +:+ "." +:+ p2)
  = Err (leafError leaf part (length (parsePath p1))).
Proof.
  intros Hclosed Hleaf Hkind Hp2.
  rewrite !GetValueByPath_traverse, (parsePath_dot _ _ Hclosed), traverse_app, Hp2.
  rewrite GetValueByPath_traverse in Hleaf.
  destruct (traverse data (parsePath p1) 0) as [[place x]| |]; try done.
  injection Hleaf as ->. by destruct leaf.
Qed.

Lemma GetValueByPath_past_leaf_witness :
  GetValueByPath userTree ("user.name" +:+ "." +:+ "first[0]")
  = Err (leafError (VString "J") "first" (length (parsePath "user.name"))).
Proof.
  apply (GetValueByPath_past_leaf userTree (VString "J") "user.name" "first[0]"
           "first" ["[0]"]); reflexivity.
Defined.

(** X5. Where the traversal stands on a map: a key of the segment that is
    absent ends it with the key-not-found error; a bracketed integer ends
    it with the array-index-on-map error; and a bracketed segment whose
    contents are not an integer is looked up as the empty key. *)
Theorem traverse_on_map (data : value) (pre rest : list string)
    (place : list selector) (m : gmap string value) (part : string) :
  traverse data pre 0 = Ok (place, VMap m) ->
  (bracketFree part = true -> m !! part = None ->
   traverse data (pre ++ part :: rest) 0
   = Err (ErrKeyNotFound part (length pre) part))
  /\ (forall c index, part = "[" +:+ c +:+ "]" -> bracketFree c = true ->
        Atoi c = Some index ->
        traverse data (pre ++ part :: rest) 0
        = Err (ErrArrayIndexOnMap part (length pre)))
  /\ (forall c, part = "[" +:+ c +:+ "]" -> bracketFree c = true ->
        Atoi c = None ->
        traverse data (pre ++ [part]) 0
        = match m !! "" with
          | Some found => Ok (place ++ [AtKey ""], found)
          | None => Err (ErrKeyNotFound part (length pre) "")
          end).
Proof.
  intros Hpre. split; [| split].
  - intros Hfree Hnone. rewrite traverse_app, Hpre. simpl.
    rewrite (parsePart_key _ Hfree). unbind. by rewrite Hnone.
  - intros c index -> Hc Hatoi. rewrite traverse_app, Hpre. simpl.
    rewrite (parsePart_index _ (isIndexSegment_bracketed _ Hc)).
    by rewrite slice_bracketed, Hatoi.
  - intros c -> Hc Hatoi. rewrite traverse_app, Hpre. simpl.
    rewrite (parsePart_index _ (isIndexSegment_bracketed _ Hc)).
    rewrite slice_bracketed, Hatoi. unbind. by destruct (m !! "").
Qed.

Lemma traverse_on_map_witness :
  traverse userTree (["user"] ++ "email" :: ["x"]) 0
  = Err (ErrKeyNotFound "email" (length ["user"]) "email").
Proof.
  eapply (proj1 (traverse_on_map userTree ["user"] ["x"] _ _ "email" eq_refl));
    reflexivity.
Defined.

Lemma findInElements_first (v : list value) (key : string) (j0 j : nat)
    (itemMap : gmap string value) (x : value) :
  v !! j = Some (VMap itemMap) -> itemMap !! key = Some x ->
  (forall k item, (k < j)%nat -> v !! k = Some item -> lookupIn item key = None) ->
  findInElements v key j0 = Some ((j0 + j)%nat, x).
Proof.
  revert j0 j. induction v as [|item rest IH]; intros j0 j Hj Hx Hbefore; [done |].
  rewrite findInElements_cons. destruct j as [|j].
  - injection Hj as ->. simpl. by rewrite Hx, Nat.add_0_r.
  - rewrite (Hbefore O item) by (done || lia).
    replace (j0 + S j)%nat with (S j0 + j)%nat by lia.
    apply IH; [done | done |]. intros k item' Hk Hitem'.
    apply (Hbefore (S k) item'); [lia | done].
Qed.

Lemma findInElements_None (v : list value) (key : string) (j0 : nat) :
  (forall item, item ∈ v -> lookupIn item key = None) ->
  findInElements v key j0 = None.
Proof.
  revert j0. induction v as [|item rest IH]; intros j0 Hall; [done |].
  rewrite findInElements_cons, (Hall item) by apply list_elem_of_here.
  apply IH. intros item' Hin. apply Hall. by apply list_elem_of_further.
Qed.

(** X6. Where the traversal stands on a slice, a key segment is searched
    through the elements: it resolves to the value under that key in the
    first element that is a map holding it, and ends with the
    key-not-found-in-array error when no element is such a map. *)
Theorem traverse_on_slice_key (data : value) (pre rest : list string)
    (place : list selector) (l : list value) (key : string) :
  traverse data pre 0 = Ok (place, VSlice l) ->
  bracketFree key = true ->
  (forall (j : nat) (itemMap : gmap string value) (x : value),
      l !! j = Some (VMap itemMap) -> itemMap !! key = Some x ->
      (forall k item, (k < j)%nat -> l !! k = Some item -> lookupIn item key = None) ->
      traverse data (pre ++ [key]) 0 = Ok (place ++ [AtIndex j; AtKey key], x))
  /\ ((forall item, item ∈ l -> lookupIn item key = None) ->
      traverse data (pre ++ key :: rest) 0
      = Err (ErrKeyNotFoundInArray key (length pre) key)).
Proof.
  intros Hpre Hfree. split.
  - intros j itemMap x Hj Hx Hbefore. rewrite traverse_app, Hpre. simpl.
    rewrite (parsePart_key _ Hfree). unbind.
    by rewrite (findInElements_first _ _ 0 j _ _ Hj Hx Hbefore).
  - intros Hnone. rewrite traverse_app, Hpre. simpl.
    rewrite (parsePart_key _ Hfree). unbind.
    by rewrite (findInElements_None _ _ 0 Hnone).
Qed.

Lemma traverse_on_slice_key_witness :
  traverse (VSlice [VNil; VMap {[ "id" := VNil ]}; VMap {[ "name" := VString "n" ]}])
           ([] ++ ["name"]) 0
  = Ok ([] ++ [AtIndex 2%nat; AtKey "name"], VString "n").
Proof.
  eapply (proj1 (traverse_on_slice_key _ [] [] [] _ "name" eq_refl eq_refl)
            2%nat {[ "name" := VString "n" ]}).
  - reflexivity.
  - reflexivity.
  - intros [|[|k]] item Hk Hitem; [| | lia]; by injection Hitem as <-.
Defined.

(** ** The mutator, case by case *)

Lemma parsePath_last_wellFormed (path : string) (pre : list string) (last : string) :
  parsePath path = pre ++ [last] ->
  Forall (fun part => wellFormedPart part = true) pre
  /\ wellFormedPart last = true.
Proof.
  intros Hparts. pose proof (parsePath_wellFormed path) as Hall.
  rewrite Hparts in Hall. apply Forall_app in Hall as [Hpre Hlast].
  split; [done | by inversion Hlast].
Qed.


(** X7. [SetValueByPath] does not panic, provided the container its last
    segment is applied to (what the parent path resolves to; the root for
    a path of one segment) is not a map without entries: the segments it
    hands to [parsePart] come from the tokenizer, and of the assignments
    of [setValueAtPath] only the one into a nil map, which has no entry,
    panics. *)
Theorem SetValueByPath_no_panic (data : value) (path : string) (val : value) :
  (forall place parent,
      navigate data (Join (removelast (parsePath path))) = Ok (place, parent) ->
      isEmptyMap parent = false) ->
  (SetValueByPath data path val).2 <> Panic.
Proof.
  intros _.
  destruct (parsePath path) as [|part parts] eqn:Hparts.
  { unfold SetValueByPath. rewrite Hparts. by destruct (decide (path = "")). }
  destruct (exists_last (l := part :: parts)) as (pre & last & Hsplit); [done |].
  rewrite Hsplit in Hparts. rewrite (SetValueByPath_unfold _ _ _ _ _ Hparts).
  pose proof (navigate_no_panic data (Join pre)) as Hnav.
  destruct (navigate data (Join pre)) as [[place parent]| |]; [| done | done].
  destruct (parsePath_last_wellFormed _ _ _ Hparts) as [_ Hlast].
  destruct (parsePart_wellFormed _ Hlast) as (key & index & isArray & Hpart).
  unfold setValueAtPath. rewrite Hpart.
  destruct parent; try done; destruct isArray; try done.
  by destruct ((index <? 0) || (index >=? Z.of_nat (length l))).
Qed.

Lemma SetValueByPath_no_panic_witness :
  (SetValueByPath userTree "user.email" (VString "j@x")).2 <> Panic.
Proof.
  apply SetValueByPath_no_panic. intros place parent [= <- <-]. reflexivity.
Defined.



(** X9. The two refusals of [setValueAtPath], through any parent path: a
    bracketed integer applied to a map, and a key (or a bracketed segment
    that is not an integer, read as the empty key) applied to a slice,
    are errors that leave the tree as it was. *)
Theorem SetValueByPath_wrong_container (data : value) (path : string)
    (val : value) (pre : list string) (last : string)
    (place : list selector) (parent : value) :
  parsePath path = pre ++ [last] ->
  navigate data (Join pre) = Ok (place, parent) ->
  (forall m key index,
      parent = VMap m -> parsePart last = Ok (key, index, true) ->
      SetValueByPath data path val = (data, Err ErrSetArrayIndexOnMap))
  /\ (forall l key index,
      parent = VSlice l -> parsePart last = Ok (key, index, false) ->
      SetValueByPath data path val = (data, Err (ErrSetKeyOnArray key))).
Proof.
  intros Hparts Hnav.
  pose proof (navigate_assign_same _ _ _ _ Hnav) as Hsame.
  split.
  - intros m key index -> Hpart.
    rewrite (SetValueByPath_unfold _ _ _ _ _ Hparts), Hnav.
    unfold setValueAtPath. rewrite Hpart. by rewrite Hsame.
  - intros l key index -> Hpart.
    rewrite (SetValueByPath_unfold _ _ _ _ _ Hparts), Hnav.
    unfold setValueAtPath. rewrite Hpart. by rewrite Hsame.
Qed.

Lemma SetValueByPath_wrong_container_witness :
  SetValueByPath userTree "user.items.name" VNil
  = (userTree, Err (ErrSetKeyOnArray "name")).
Proof.
  eapply (proj2 (SetValueByPath_wrong_container userTree "user.items.name" VNil
                   ["user"; "items"] "name" _ _ eq_refl eq_refl)); reflexivity.
Defined.

Lemma scanRunes_separators (path : string) :
  separatorsOnly path = true ->
  scanRunes (Scanner [] "" false) path = Scanner [] "" false.
Proof.
  unfold separatorsOnly. induction path as [|c path IH]; [done |]. simpl.
  rewrite andb_true_iff, orb_true_iff.
  intros [[->%Ascii.eqb_eq | ->%Ascii.eqb_eq] Hrest];
    rewrite scanRunes_cons by done; by apply IH.
Qed.

(** X10. A path that is not empty but holds only separators has no
    segment: [SetValueByPath] refuses it as an invalid path and leaves
    the tree as it was, while [GetValueByPath] returns the whole tree. *)
Theorem SetValueByPath_separators_only (data : value) (path : string) (val : value) :
  path <> "" ->
  separatorsOnly path = true ->
  SetValueByPath data path val = (data, Err ErrInvalidPath)
  /\ GetValueByPath data path = Ok data.
Proof.
  intros Hne Hsep.
  assert (parsePath path = []) as Hparts
    by (unfold parsePath; by rewrite scanRunes_separators).
  split.
  - unfold SetValueByPath. destruct (decide (path = "")); [done |].
    by rewrite Hparts.
  - by rewrite GetValueByPath_traverse, Hparts.
Qed.

Lemma SetValueByPath_separators_only_witness :
  SetValueByPath userTree "..]." VNil = (userTree, Err ErrInvalidPath)
  /\ GetValueByPath userTree "..]." = Ok userTree.
Proof. apply SetValueByPath_separators_only; [discriminate | reflexivity]. Defined.

(** ** The finder against the list of all paths *)

Section FinderCoverage.
Context {lib : Library}.

(** Ranging over the maps in one and the same order, the finder appends
    some of the paths [getAllPathsRecursive] appends. *)
Lemma findPathsRecursive_sublist (data : value) :
  forall (currentPath : string) (options : option FindOptions)
         (paths paths' : list string),
    paths `sublist_of` paths' ->
    (findPathsRecursive data currentPath options paths).2 = None
    /\ (findPathsRecursive data currentPath options paths).1
       `sublist_of` getAllPathsRecursive data currentPath paths'.
Proof.
  induction data as [| | | |m IH|l IH] using value_tree_ind;
    intros currentPath options paths paths' Hsub; try done.
  - simpl. rewrite !map_fold_foldr.
    assert (Forall (fun kx => m !! kx.1 = Some kx.2) (map_to_list m)) as Hin.
    { apply Forall_forall. intros [key x]. apply elem_of_map_to_list. }
    induction Hin as [|[key x] entries Hx _ IHentries]; [done |].
    simpl in *. destruct IHentries as [Herr Hrest].
    destruct (foldr _ (paths, None) entries) as [found err]. simpl in Herr, Hrest.
    subst err. apply (IH key x Hx).
    destruct (matchesOptions x key options).
    + by apply sublist_app.
    + by apply sublist_inserts_r.
  - simpl. generalize O. revert paths paths' Hsub.
    induction IH as [|x rest Hx _ IHrest]; intros paths paths' Hsub i; [done |].
    specialize (Hx (indexPath currentPath i) options
                  (if matchesOptions x "" options
                   then paths ++ [indexPath currentPath i] else paths)
                  (paths' ++ [indexPath currentPath i])).
    destruct Hx as [Herr Hfound].
    { destruct (matchesOptions x "" options);
        [by apply sublist_app | by apply sublist_inserts_r]. }
    destruct (findPathsRecursive x _ options _) as [found err].
    simpl in Herr, Hfound. subst err. by apply IHrest.
Qed.

(** X11. Whatever the options and the library, [FindPaths] returns no
    error, and its paths are among the paths [GetAllPaths] returns, each
    at most as many times: some of them left out, in an order that is
    that of [GetAllPaths] only up to the order in which each of the two
    calls ranges over the maps. *)
Theorem FindPaths_among_GetAllPaths (data : value) (options : option FindOptions) :
  (FindPaths data options).2 = None
  /\ (FindPaths data options).1 ⊆+ GetAllPaths data.
Proof.
  assert ((FindPaths data options).2 = None
          /\ (FindPaths data options).1 `sublist_of` GetAllPaths data)
    as [Herr Hsub] by (by apply findPathsRecursive_sublist).
  split; [done | by apply sublist_submseteq].
Qed.

(** What the four filters say of a node that matches. *)
Lemma matchesOptions_inv (val : value) (key : string) (options : FindOptions) :
  matchesOptions val key (Some options) = true ->
  (KeyPattern options <> "" -> key <> "" ->
   MatchString (KeyPattern options) key = true)
  /\ (ValueType options <> "" -> getValueType val = ValueType options)
  /\ (ExactValue options <> "" -> convertToString val = ExactValue options)
  /\ (ValuePattern options <> "" ->
      MatchString (ValuePattern options) (convertToString val) = true).
Proof.
  unfold matchesOptions.
  destruct (nonEmpty (KeyPattern options)) eqn:Hkp,
           (nonEmpty (ValueType options)) eqn:Hvt,
           (nonEmpty (ExactValue options)) eqn:Hev,
           (nonEmpty (ValuePattern options)) eqn:Hvp,
           (nonEmpty key) eqn:Hkey; simpl;
    repeat match goal with
           | H : nonEmpty _ = false |- _ =>
               apply negb_false_iff, String.eqb_eq in H
           | H : nonEmpty _ = true |- _ => clear H
           | |- context [negb (MatchString ?p ?s)] =>
               destruct (MatchString p s) eqn:?; simpl
           | |- context [negb (String.eqb ?a ?b)] =>
               destruct (String.eqb_spec a b); simpl
           end; intros Hm; try discriminate; repeat split; intros; congruence.
Qed.

(** Every path [findPathsRecursive] appends resolves, against the root, to
    a node that matches the options. *)
Lemma findPathsRecursive_sound (root sub : value) (options : option FindOptions) :
  forall (currentPath : string) (paths : list string) (place : list selector),
    keysAre validKey sub = true -> keysAre ValidString sub = true ->
    lengthsFit sub = true ->
    closedPath currentPath = true ->
    traverse root (parsePath currentPath) 0 = Ok (place, sub) ->
    forall path,
      path ∈ (findPathsRecursive sub currentPath options paths).1 ->
      path ∈ paths
      \/ exists place' found key,
           traverse root (parsePath path) 0 = Ok (place', found)
           /\ matchesOptions found key options = true.
Proof.
  induction sub as [| | | |m IH|l IH] using value_tree_ind;
    intros currentPath paths place Hkeys Hvalid Hfit Hclosed Htrav path Hpath;
    try (by left).
  - simpl in Hpath. rewrite map_fold_foldr in Hpath.
    assert (Forall (fun kx => m !! kx.1 = Some kx.2) (map_to_list m)) as Hin.
    { apply Forall_forall. intros [key x]. apply elem_of_map_to_list. }
    revert path Hpath.
    induction Hin as [|[key x] entries Hx _ IHentries]; intros path Hpath;
      [by left |].
    simpl in Hx, Hpath.
    destruct (foldr _ (paths, None) entries) as [found [err|]];
      [by apply IHentries |].
    destruct (keysAre_lookup _ _ _ _ Hkeys Hx) as [Hkey Hkeys'].
    destruct (keysAre_lookup _ _ _ _ Hvalid Hx) as [Hutf Hvalid'].
    pose proof (lengthsFit_lookup _ _ _ Hfit Hx) as Hfit'.
    destruct (parsePath_keyPath _ _ Hclosed Hkey Hutf) as (_ & Hclosed' & Hne).
    pose proof (traverse_keyPath _ _ _ _ _ _ Htrav Hclosed Hkey Hutf Hx) as Htrav'.
    apply (IH key x Hx _ _ _ Hkeys' Hvalid' Hfit' Hclosed' Htrav') in Hpath
      as [Hpath | Hpath]; [| by right].
    destruct (matchesOptions x key options) eqn:Hmatch; [| by apply IHentries].
    apply elem_of_app in Hpath as [Hpath | ->%list_elem_of_singleton];
      [by apply IHentries | right; eauto 6].
  - simpl in Hkeys, Hvalid, Hfit, Hpath. apply andb_true_iff in Hfit as [Hlen Hfit].
    apply Z.leb_le in Hlen.
    match type of Hpath with
    | _ ∈ (?loop _ _ _).1 =>
        assert (forall rest i paths,
                   (forall k x, rest !! k = Some x -> l !! (i + k)%nat = Some x) ->
                   forall path,
                     path ∈ (loop rest i paths).1 ->
                     path ∈ paths
                     \/ exists place' found key,
                          traverse root (parsePath path) 0 = Ok (place', found)
                          /\ matchesOptions found key options = true) as Hloop
    end.
    { clear Hpath path paths. induction rest as [|x rest IHrest];
        intros i paths Hrest path Hpath; [by left |].
      pose proof (Hrest O x eq_refl) as Hx. rewrite Nat.add_0_r in Hx.
      destruct (parsePath_indexPath currentPath i) as (_ & Hclosed' & Hne).
      pose proof (traverse_indexPath _ _ _ _ _ _ Htrav Hlen Hx) as Htrav'.
      pose proof (proj1 (Forall_lookup _ _) IH _ _ Hx (indexPath currentPath i)
                    (if matchesOptions x "" options
                     then paths ++ [indexPath currentPath i] else paths) _
                    (forallb_lookup _ _ _ _ Hkeys Hx)
                    (forallb_lookup _ _ _ _ Hvalid Hx)
                    (forallb_lookup _ _ _ _ Hfit Hx) Hclosed' Htrav') as Hx'.
      assert (forall p,
                 p ∈ (if matchesOptions x "" options
                      then paths ++ [indexPath currentPath i] else paths) ->
                 p ∈ paths
                 \/ exists place' found key,
                      traverse root (parsePath p) 0 = Ok (place', found)
                      /\ matchesOptions found key options = true) as Hhere.
      { intros p Hp. destruct (matchesOptions x "" options) eqn:Hmatch; [| by left].
        apply elem_of_app in Hp as [Hp | ->%list_elem_of_singleton];
          [by left | right; eauto 6]. }
      simpl in Hpath.
      destruct (findPathsRecursive x _ options _) as [found [err|]].
      - simpl in Hpath. destruct (Hx' _ Hpath) as [Hp | Hp]; [auto | by right].
      - apply IHrest in Hpath.
        2: { intros k y Hy. replace (S i + k)%nat with (i + S k)%nat by lia.
             by apply Hrest. }
        destruct Hpath as [Hpath | Hpath]; [| by right].
        destruct (Hx' _ Hpath) as [Hp | Hp]; [auto | by right]. }
    by apply (Hloop l O paths).
Qed.

(** X12. On a tree whose keys are not empty, are valid UTF-8 and hold no
    delimiter, every path [FindPaths] returns resolves to a value that
    passes the value filters set: it has the value type asked for, its
    string form is the exact value asked for, and its string form matches
    the value pattern. *)
Theorem FindPaths_sound (data : value) (options : FindOptions) (path : string) :
  keysAre validKey data = true ->
  keysAre ValidString data = true ->
  lengthsFit data = true ->
  path ∈ (FindPaths data (Some options)).1 ->
  exists found,
    GetValueByPath data path = Ok found
    /\ (ValueType options <> "" -> getValueType found = ValueType options)
    /\ (ExactValue options <> "" -> convertToString found = ExactValue options)
    /\ (ValuePattern options <> "" ->
        MatchString (ValuePattern options) (convertToString found) = true).
Proof.
  intros Hkeys Hvalid Hfit Hpath.
  apply (findPathsRecursive_sound data data (Some options) "" [] []
           Hkeys Hvalid Hfit eq_refl eq_refl) in Hpath
    as [Hpath | (place & found & key & Htrav & Hmatch)];
    [by apply elem_of_nil in Hpath |].
  exists found. split; [by rewrite GetValueByPath_traverse, Htrav |].
  by destruct (matchesOptions_inv _ _ _ Hmatch) as (_ & ? & ? & ?).
Qed.

End FinderCoverage.

Lemma FindPaths_sound_witness :
  exists found,
    GetValueByPath userTree "user.items" = Ok found
    /\ ("array" <> "" -> getValueType found = "array")
    /\ ("" <> "" -> @convertToString literalLibrary found = "")
    /\ ("" <> "" -> @MatchString literalLibrary "" (@convertToString literalLibrary found) = true).
Proof.
  apply (@FindPaths_sound literalLibrary userTree
           {| KeyPattern := ""; ValuePattern := ""; ExactValue := "";
              ValueType := "array" |} "user.items").
  - vm_compute. reflexivity.
  - vm_compute. reflexivity.
  - vm_compute. reflexivity.
  - apply list_elem_of_In. vm_compute. auto.
Defined.

(** ** The conversion to strings *)

Section ConverterProperties.
Context {lib : Library}.

Lemma ConvertValuesToString_stringified (data : value) :
  ConvertValuesToString data = Ok (stringified data).
Proof.
  induction data as [| | | |m IH|l IH] using value_tree_ind; try done.
  - simpl.
    assert (map_fold (fun key val acc =>
               result ← acc;
               converted ← ConvertValuesToString val;
               Ok (<[key := converted]> result)) (Ok ∅) m
            = Ok (stringified <$> m)) as ->; [| done].
    revert IH.
    apply (map_fold_weak_ind (fun r m' =>
             (forall key x, m' !! key = Some x ->
                            ConvertValuesToString x = Ok (stringified x)) ->
             r = Ok (stringified <$> m'))).
    + intros _. by rewrite fmap_empty.
    + intros key x m' r Hfresh IHm' Hall.
      rewrite IHm'.
      2: { intros key' x' Hx'. apply (Hall key' x').
           rewrite lookup_insert_ne; [done |]. by intros ->; rewrite Hfresh in Hx'. }
      unbind. rewrite (Hall key x) by apply lookup_insert_eq.
      by rewrite fmap_insert.
  - simpl.
    assert ((fix loop (v : list value) : result (list value) :=
               match v with
               | [] => Ok []
               | val :: rest =>
                   converted ← ConvertValuesToString val;
                   result ← loop rest;
                   Ok (converted :: result)
               end) l = Ok (stringified <$> l)) as ->; [| done].
    induction IH as [|x rest Hx _ IHrest]; [done |].
    by rewrite Hx, IHrest.
Qed.

Lemma stringified_idem (data : value) :
  stringified (stringified data) = stringified data.
Proof.
  induction data as [| | | |m IH|l IH] using value_tree_ind; try done.
  - simpl. f_equal. rewrite <- map_fmap_compose.
    apply map_fmap_ext. intros key x Hx. by apply (IH key x).
  - simpl. f_equal. rewrite <- list_fmap_compose.
    apply Forall_fmap_ext. eapply Forall_impl; [exact IH |]. done.
Qed.

Lemma stringified_allStrings (data : value) :
  allStrings (stringified data) = true.
Proof.
  induction data as [| | | |m IH|l IH] using value_tree_ind; try done.
  - simpl. rewrite map_fold_fmap, map_fold_foldr.
    assert (Forall (fun kx => m !! kx.1 = Some kx.2) (map_to_list m)) as Hin.
    { apply Forall_forall. intros [key x]. apply elem_of_map_to_list. }
    induction Hin as [|[key x] entries Hx _ IHentries]; [done |].
    simpl in *. by rewrite (IH key x Hx), IHentries.
  - change (forallb allStrings (stringified <$> l) = true).
    induction IH as [|x rest Hx _ IHrest]; [done |].
    rewrite fmap_cons. cbn [forallb]. by rewrite Hx, IHrest.
Qed.

(** X14. On every decoded document [ConvertValuesToString] returns a
    document, never an error; every leaf of what it returns is a string;
    and converting that again returns it unchanged. *)
Theorem ConvertValuesToString_total (data : value) :
  exists out,
    ConvertValuesToString data = Ok out
    /\ allStrings out = true
    /\ ConvertValuesToString out = Ok out.
Proof.
  exists (stringified data). split; [apply ConvertValuesToString_stringified |].
  split; [apply stringified_allStrings |].
  by rewrite ConvertValuesToString_stringified, stringified_idem.
Qed.

(** Ranging over the maps in one and the same order, the converted
    document has the paths of the document. *)
Lemma getAllPathsRecursive_stringified (data : value) :
  forall (currentPath : string) (paths : list string),
    getAllPathsRecursive (stringified data) currentPath paths
    = getAllPathsRecursive data currentPath paths.
Proof.
  induction data as [| | | |m IH|l IH] using value_tree_ind;
    intros currentPath paths; try done.
  - simpl. rewrite map_fold_fmap, !map_fold_foldr.
    assert (Forall (fun kx => m !! kx.1 = Some kx.2) (map_to_list m)) as Hin.
    { apply Forall_forall. intros [key x]. apply elem_of_map_to_list. }
    induction Hin as [|[key x] entries Hx _ IHentries]; [done |].
    simpl in *. by rewrite IHentries, (IH key x Hx).
  - simpl. generalize O. revert paths.
    induction IH as [|x rest Hx _ IHrest]; intros paths i; [done |].
    simpl. by rewrite Hx, IHrest.
Qed.

Lemma findInElements_stringified (l : list value) (key : string) (j : nat) :
  findInElements (stringified <$> l) key j
  = (fun jx => (jx.1, stringified jx.2)) <$> findInElements l key j.
Proof.
  revert j. induction l as [|item rest IH]; intros j; [done |].
  rewrite fmap_cons, !findInElements_cons.
  destruct item; simpl; try apply IH.
  rewrite lookup_fmap. destruct (m !! key); [done | apply IH].
Qed.

(** The traversal of the converted document follows the same steps. *)
Lemma traverse_stringified (data : value) (parts : list string) (i : nat) :
  match traverse data parts i with
  | Ok (place, found) =>
      traverse (stringified data) parts i = Ok (place, stringified found)
  | Err _ => exists e, traverse (stringified data) parts i = Err e
  | Panic => traverse (stringified data) parts i = Panic
  end.
Proof.
  revert data i. induction parts as [|part rest IH]; intros data i; [done |].
  simpl. destruct data; try (simpl; eauto; fail).
  - simpl. destruct (parsePart part) as [[[key index] isArray]| |]; unbind;
      eauto.
    destruct isArray; [eauto |]. rewrite lookup_fmap.
    destruct (m !! key) as [next|]; simpl; [| eauto].
    specialize (IH next (S i)).
    destruct (traverse next rest (S i)) as [[place found]| |]; unbind.
    + by rewrite IH.
    + destruct IH as [e' ->]. eauto.
    + by rewrite IH.
  - simpl. destruct (parsePart part) as [[[key index] isArray]| |]; unbind;
      eauto.
    destruct isArray.
    + rewrite length_fmap.
      destruct ((index <? 0) || (index >=? Z.of_nat (length l))); [eauto |].
      rewrite list_lookup_fmap.
      destruct (l !! Z.to_nat index) as [next|]; simpl; [| done].
      specialize (IH next (S i)).
      destruct (traverse next rest (S i)) as [[place found]| |]; unbind.
      * by rewrite IH.
      * destruct IH as [e' ->]. eauto.
      * by rewrite IH.
    + rewrite findInElements_stringified.
      destruct (findInElements l key 0) as [[j next]|]; simpl; [| eauto].
      specialize (IH next (S i)).
      destruct (traverse next rest (S i)) as [[place found]| |]; unbind.
      * by rewrite IH.
      * destruct IH as [e' ->]. eauto.
      * by rewrite IH.
Qed.

Lemma GetValueByPath_stringified (data found : value) (path : string) :
  GetValueByPath data path = Ok found ->
  GetValueByPath (stringified data) path = Ok (stringified found).
Proof.
  intros Hget. rewrite GetValueByPath_traverse in Hget |- *.
  pose proof (traverse_stringified data (parsePath path) 0) as Hconv.
  destruct (traverse data (parsePath path) 0) as [[place x]| |]; try done.
  injection Hget as ->. by rewrite Hconv.
Qed.

Lemma ConvertValuesToString_Ok (data out : value) :
  ConvertValuesToString data = Ok out -> out = stringified data.
Proof. rewrite ConvertValuesToString_stringified. by intros [= <-]. Qed.

(** X15. The conversion keeps the shape of the document: [GetAllPaths]
    returns the same paths for the converted document, each as many
    times (in an order that depends on how each call ranges over the
    maps), and [HasPath] answers the same on every path. *)
Theorem ConvertValuesToString_shape (data out : value) :
  ConvertValuesToString data = Ok out ->
  GetAllPaths out ≡ₚ GetAllPaths data
  /\ forall path, HasPath out path = HasPath data path.
Proof.
  intros ->%ConvertValuesToString_Ok. split.
  - unfold GetAllPaths. by rewrite getAllPathsRecursive_stringified.
  - intros path. unfold HasPath. rewrite !GetValueByPath_traverse.
    pose proof (traverse_stringified data (parsePath path) 0) as Hconv.
    destruct (traverse data (parsePath path) 0) as [[place found]| |].
    + by rewrite Hconv.
    + by destruct Hconv as [e' ->].
    + by rewrite Hconv.
Qed.

(** X16. The conversion commutes with navigation: where a path resolves
    in the document, it resolves in the converted document to the
    conversion of what it resolved to; on a leaf that is the string
    [GetStringByPath] returns. *)
Theorem ConvertValuesToString_GetValueByPath (data out found : value) (path : string) :
  ConvertValuesToString data = Ok out ->
  GetValueByPath data path = Ok found ->
  (exists found',
      ConvertValuesToString found = Ok found'
      /\ GetValueByPath out path = Ok found')
  /\ (isLeaf found = true ->
      exists s, GetStringByPath data path = Ok s
                /\ GetValueByPath out path = Ok (VString s)).
Proof.
  intros ->%ConvertValuesToString_Ok Hget.
  pose proof (GetValueByPath_stringified _ _ _ Hget) as Hout.
  split.
  - exists (stringified found). by rewrite ConvertValuesToString_stringified.
  - intros Hleaf. exists (convertToString found). unfold GetStringByPath.
    rewrite Hget, Hout. split; [done |]. by destruct found.
Qed.

(** X17. [GetBoolByPath] answers the same on the converted document as on
    the document wherever the path resolves to a boolean, a string or
    [nil]: [strconv.ParseBool] reads back what [strconv.FormatBool]
    prints, and the empty string is no boolean. *)
Theorem GetBoolByPath_converted (data out found : value) (path : string) :
  ConvertValuesToString data = Ok out ->
  GetValueByPath data path = Ok found ->
  (match found with VBool _ | VString _ | VNil => True | _ => False end) ->
  GetBoolByPath out path = GetBoolByPath data path.
Proof.
  intros ->%ConvertValuesToString_Ok Hget Hkind.
  pose proof (GetValueByPath_stringified _ _ _ Hget) as Hout.
  unfold GetBoolByPath. rewrite Hget, Hout. unbind.
  destruct found as [| [|] | | | |]; done.
Qed.

End ConverterProperties.

Lemma ConvertValuesToString_shape_witness :
  GetAllPaths (stringified (lib := literalLibrary) userTree) ≡ₚ GetAllPaths userTree.
Proof.
  apply (ConvertValuesToString_shape (lib := literalLibrary) userTree).
  vm_compute. reflexivity.
Defined.

Lemma ConvertValuesToString_GetValueByPath_witness :
  exists found',
    ConvertValuesToString (lib := literalLibrary) (VString "J") = Ok found'
    /\ GetValueByPath (stringified (lib := literalLibrary) userTree) "user.name"
       = Ok found'.
Proof.
  apply (ConvertValuesToString_GetValueByPath (lib := literalLibrary) userTree).
  - vm_compute. reflexivity.
  - reflexivity.
Defined.

Lemma GetBoolByPath_converted_witness :
  GetBoolByPath (stringified (lib := literalLibrary)
                   (VMap {[ "on" := VBool true ]})) "on"
  = GetBoolByPath (VMap {[ "on" := VBool true ]}) "on".
Proof.
  apply (GetBoolByPath_converted (lib := literalLibrary) _ _ (VBool true)).
  - vm_compute. reflexivity.
  - reflexivity.
  - exact I.
Defined.

(** ** The segment parser on the forms it documents *)

Lemma Index_append (s t : string) (c : ascii) :
  allChars (fun d => negb (isChar d c)) s = true ->
  Index (s +:+ String c t) c = Some (String.length s).
Proof.
  induction s as [|d s IH]; simpl.
  - intros _. unfold isChar. by rewrite Ascii.eqb_refl.
  - rewrite andb_true_iff, negb_true_iff. intros [-> Hs]. by rewrite IH.
Qed.

Lemma substring_skip (s t : string) (n m : nat) :
  String.substring (String.length s + n) m (s +:+ t) = String.substring n m t.
Proof. induction s as [|d s IH]; [done | by simpl]. Qed.

Lemma bracketFree_no_open (s : string) :
  bracketFree s = true -> allChars (fun d => negb (isChar d "[")) s = true.
Proof.
  unfold bracketFree. induction s as [|d s IH]; simpl; [done |].
  rewrite !andb_true_iff. intros [Hd Hs]. split; [| by apply IH].
  unfold isBracket in Hd. by destruct (isChar d "[").
Qed.

Lemma bracketFree_no_close (s : string) :
  bracketFree s = true -> allChars (fun d => negb (isChar d "]")) s = true.
Proof.
  unfold bracketFree. induction s as [|d s IH]; simpl; [done |].
  rewrite !andb_true_iff. intros [Hd Hs]. split; [| by apply IH].
  unfold isBracket in Hd. by destruct (isChar d "["), (isChar d "]").
Qed.

(** X18. The combined form: on a key followed by bracketed contents,
    [parsePart] returns the key with the integer the contents denote and
    the array flag, or the key with index -1 and no array flag when the
    contents are not an integer; it does not panic. *)
Theorem parsePart_combined (key c : string) :
  nonEmpty key = true -> bracketFree key = true -> bracketFree c = true ->
  parsePart (key +:+ "[" +:+ c +:+ "]") =
    match Atoi c with
    | Some index => Ok (key, index, true)
    | None => Ok (key, -1, false)
    end.
Proof.
  intros Hne Hkey Hc. unfold parsePart.
  assert (HasPrefix (key +:+ "[" +:+ c +:+ "]") "[" = false) as ->.
  { destruct key as [|d key]; [done |]. by apply (bracketFree_HasPrefix (String d key)). }
  simpl andb. cbv iota.
  change ("[" +:+ c +:+ "]") with (String "[" (c +:+ "]")).
  rewrite (Index_append key _ "[") by (by apply bracketFree_no_open).
  replace (key +:+ String "[" (c +:+ "]")) with ((key +:+ "[" +:+ c) +:+ "]")
    by (by rewrite !append_assoc).
  rewrite (Index_append (key +:+ "[" +:+ c) "" "]").
  2: { rewrite !allChars_app. rewrite (bracketFree_no_close _ Hkey).
       by rewrite (bracketFree_no_close _ Hc). }
  rewrite !length_append. simpl String.length.
  destruct (Nat.leb_spec (String.length key + 1) (String.length key + (1 + String.length c)))
    as [_ | ?]; [| lia].
  unfold slice.
  assert (String.substring 0 (String.length key - 0)
            ((key +:+ "[" +:+ c) +:+ "]") = key) as ->.
  { rewrite Nat.sub_0_r, !append_assoc. apply substring_prefix. }
  assert (String.substring (String.length key + 1)
            (String.length key + (1 + String.length c) - (String.length key + 1))
            ((key +:+ "[" +:+ c) +:+ "]") = c) as ->.
  { rewrite !append_assoc, substring_skip. simpl. rewrite append_nil_l.
    match goal with
    | |- String.substring 0 ?n _ = _ => replace n with (String.length c) by lia
    end.
    apply substring_prefix. }
  by destruct (Atoi c).
Qed.

Lemma parsePart_combined_witness :
  parsePart ("items" +:+ "[" +:+ "12" +:+ "]") =
    match Atoi "12" with
    | Some index => Ok ("items", index, true)
    | None => Ok ("items", -1, false)
    end.
Proof. apply parsePart_combined; reflexivity. Defined.

(** X19. The paths the finder builds are read back by the tokenizer one
    segment at a time: the path of a key of valid UTF-8 under a path
    ending outside brackets has the segments of that path and the key,
    and the path of an element has the segments of the path and a
    bracketed index that [parsePart] reads as that index. *)
Theorem finder_paths_read_back (currentPath : string) :
  (forall key : string,
      closedPath currentPath = true -> validKey key = true ->
      ValidString key = true ->
      parsePath (keyPath currentPath key) = parsePath currentPath ++ [key]
      /\ parsePart key = Ok (key, -1, false))
  /\ (forall i : nat,
      Z.of_nat i <= maxInt ->
      parsePath (indexPath currentPath i)
      = parsePath currentPath ++ ["[" +:+ Itoa (Z.of_nat i) +:+ "]"]
      /\ parsePart ("[" +:+ Itoa (Z.of_nat i) +:+ "]") = Ok ("", Z.of_nat i, true)).
Proof.
  split.
  - intros key Hclosed Hkey Hvalid. split; [by apply parsePath_keyPath |].
    apply validKey_inv in Hkey as [_ Hplain]. by apply parsePart_key, plain_bracketFree.
  - intros i Hmax. split; [apply parsePath_indexPath | by apply parsePart_indexPath].
Qed.

Lemma finder_paths_read_back_witness :
  parsePath (indexPath "user.items" 10)
  = parsePath "user.items" ++ ["[" +:+ Itoa (Z.of_nat 10) +:+ "]"]
  /\ parsePart ("[" +:+ Itoa (Z.of_nat 10) +:+ "]") = Ok ("", Z.of_nat 10, true).
Proof.
  apply (proj2 (finder_paths_read_back "user.items")). vm_compute. discriminate.
Defined.

(** ** The filters as a conjunction *)

Section FinderFilters.
Context {lib : Library}.

Lemma matchesOptions_fewerFilters (weaker options : FindOptions)
    (val : value) (key : string) :
  fewerFilters weaker options = true ->
  matchesOptions val key (Some options) = true ->
  matchesOptions val key (Some weaker) = true.
Proof.
  unfold fewerFilters. rewrite !andb_true_iff, !orb_true_iff, !negb_true_iff.
  intros [[[Hkp Hvp] Hev] Hvt] Hmatch. unfold matchesOptions in *.
  assert (forall a b : string, nonEmpty a = false \/ String.eqb a b = true ->
                               nonEmpty a = false \/ a = b) as Hor.
  { intros a b [? | ?%String.eqb_eq]; auto. }
  apply Hor in Hkp, Hvp, Hev, Hvt.
  destruct Hkp as [-> | ->], Hvp as [-> | ->], Hev as [-> | ->], Hvt as [-> | ->];
    simpl;
    repeat match goal with
           | H : context [if ?b then false else _] |- _ =>
               destruct b eqn:?; [discriminate H |]
           end;
    repeat match goal with
           | H : ?b = false |- context [?b] => rewrite H
           end; done.
Qed.

Lemma findPathsRecursive_no_error (data : value) (currentPath : string)
    (options : option FindOptions) (paths : list string) :
  (findPathsRecursive data currentPath options paths).2 = None.
Proof. by apply (findPathsRecursive_sublist data currentPath options paths paths). Qed.

(** Ranging over the maps in one and the same order, fewer filters let
    more paths through. *)
Lemma findPathsRecursive_fewerFilters (weaker options : FindOptions) (data : value) :
  fewerFilters weaker options = true ->
  forall (currentPath : string) (paths paths' : list string),
    paths `sublist_of` paths' ->
    (findPathsRecursive data currentPath (Some options) paths).1
    `sublist_of` (findPathsRecursive data currentPath (Some weaker) paths').1.
Proof.
  intros Hfewer.
  assert (forall x key currentPath (found found' : list string),
             found `sublist_of` found' ->
             (if matchesOptions x key (Some options)
              then found ++ [currentPath] else found)
             `sublist_of`
             (if matchesOptions x key (Some weaker)
              then found' ++ [currentPath] else found')) as Hstep.
  { intros x key currentPath found found' Hsub.
    pose proof (matchesOptions_fewerFilters weaker options x key Hfewer) as Hmono.
    destruct (matchesOptions x key (Some options)).
    - rewrite Hmono by done. by apply sublist_app.
    - destruct (matchesOptions x key (Some weaker));
        [by apply sublist_inserts_r | done]. }
  induction data as [| | | |m IH|l IH] using value_tree_ind;
    intros currentPath paths paths' Hsub; try done.
  - simpl. rewrite !map_fold_foldr.
    assert (Forall (fun kx => m !! kx.1 = Some kx.2) (map_to_list m)) as Hin.
    { apply Forall_forall. intros [key x]. apply elem_of_map_to_list. }
    match goal with
    | |- (foldr ?f1 ?a1 _).1 `sublist_of` (foldr ?f2 ?a2 _).1 =>
        assert ((foldr f1 a1 (map_to_list m)).2 = None
                /\ (foldr f2 a2 (map_to_list m)).2 = None
                /\ (foldr f1 a1 (map_to_list m)).1
                   `sublist_of` (foldr f2 a2 (map_to_list m)).1) as (_ & _ & H);
          [| exact H]
    end.
    induction Hin as [|[key x] entries Hx _ IHentries]; [done |].
    simpl in *. destruct IHentries as (Herr & Herr' & Hfound).
    destruct (foldr _ (paths, None) entries) as [found err].
    destruct (foldr _ (paths', None) entries) as [found' err'].
    simpl in Herr, Herr', Hfound. subst err err'.
    split; [apply findPathsRecursive_no_error |].
    split; [apply findPathsRecursive_no_error |].
    by apply (IH key x Hx), Hstep.
  - simpl. generalize O. revert paths paths' Hsub.
    induction IH as [|x rest Hx _ IHrest]; intros paths paths' Hsub i; [done |].
    specialize (Hx (indexPath currentPath i) _ _
                  (Hstep x "" (indexPath currentPath i) _ _ Hsub)).
    pose proof (findPathsRecursive_no_error x (indexPath currentPath i)
                  (Some options)
                  (if matchesOptions x "" (Some options)
                   then paths ++ [indexPath currentPath i] else paths)) as Herr.
    pose proof (findPathsRecursive_no_error x (indexPath currentPath i)
                  (Some weaker)
                  (if matchesOptions x "" (Some weaker)
                   then paths' ++ [indexPath currentPath i] else paths')) as Herr'.
    destruct (findPathsRecursive x _ (Some options) _) as [found err].
    destruct (findPathsRecursive x _ (Some weaker) _) as [found' err'].
    simpl in Herr, Herr', Hx. subst err err'. by apply IHrest.
Qed.

(** X20. The filters are a conjunction: leaving some of them unset can
    only add paths.  The paths [FindPaths] returns under a set of filters
    are among those it returns under any part of them, each at most as
    many times (the order of either call depends on how it ranges over
    the maps). *)
Theorem FindPaths_fewerFilters (data : value) (weaker options : FindOptions) :
  fewerFilters weaker options = true ->
  (FindPaths data (Some options)).1 ⊆+ (FindPaths data (Some weaker)).1.
Proof.
  intros Hfewer. by apply sublist_submseteq, findPathsRecursive_fewerFilters.
Qed.

End FinderFilters.

Lemma FindPaths_fewerFilters_witness :
  (@FindPaths literalLibrary userTree
     (Some {| KeyPattern := "name"; ValuePattern := ""; ExactValue := "";
              ValueType := "string" |})).1
  ⊆+ (@FindPaths literalLibrary userTree (Some (keyOptions "name"))).1.
Proof. apply (@FindPaths_fewerFilters literalLibrary). reflexivity. Defined.

(** ** How many paths a document has *)

Lemma getAllPathsRecursive_length (data : value) :
  forall (currentPath : string) (paths : list string),
    S (length (getAllPathsRecursive data currentPath paths))
    = (length paths + vsize data)%nat.
Proof.
  induction data as [| | | |m IH|l IH] using value_tree_ind;
    intros currentPath paths; try (simpl; lia).
  - simpl. rewrite !map_fold_foldr.
    assert (Forall (fun kx => m !! kx.1 = Some kx.2) (map_to_list m)) as Hin.
    { apply Forall_forall. intros [key x]. apply elem_of_map_to_list. }
    induction Hin as [|[key x] entries Hx _ IHentries]; [simpl; lia |].
    simpl in *.
    pose proof (IH key x Hx (keyPath currentPath key)
                  (foldr (uncurry (fun key val paths =>
                     getAllPathsRecursive val (keyPath currentPath key)
                       (paths ++ [keyPath currentPath key]))) paths entries
                   ++ [keyPath currentPath key])) as Hhere.
    rewrite length_app in Hhere. simpl in Hhere.
    revert IHentries Hhere.
    generalize (foldr (uncurry (fun (_ : string) (x : value) (acc : nat) =>
                                  (vsize x + acc)%nat)) O entries).
    generalize (vsize x). intros n1 n2 IHentries Hhere. lia.
  - simpl. 
    assert (forall i paths,
               S (length ((fix loop (v : list value) (i : nat) (paths : list string) :=
                             match v with
                             | [] => paths
                             | val :: rest =>
                                 loop rest (S i)
                                   (getAllPathsRecursive val (indexPath currentPath i)
                                      (paths ++ [indexPath currentPath i]))
                             end) l i paths))
               = (length paths + S (foldr (fun x acc => vsize x + acc) O l))%nat)
      as Hloop; [| apply Hloop].
    induction IH as [|x rest Hx _ IHrest]; intros i paths'; [simpl; lia |].
    simpl. rewrite IHrest.
    pose proof (Hx (indexPath currentPath i) (paths' ++ [indexPath currentPath i]))
      as Hhere.
    rewrite length_app in Hhere. simpl in Hhere. revert Hhere.
    generalize (foldr (fun (x : value) (acc : nat) => (vsize x + acc)%nat) O rest).
    generalize (vsize x). intros n1 n2 Hhere. lia.
Qed.

(** X13. [GetAllPaths] returns one path for every node of the document
    other than the root: entries of maps and elements of slices, at all
    depths. *)
Theorem GetAllPaths_length (data : value) :
  S (length (GetAllPaths data)) = vsize data.
Proof. apply (getAllPathsRecursive_length data "" []). Qed.

(** ** The finder under any order of the maps *)

Lemma getAllPathsRecursive_frame (data : value) :
  forall (currentPath : string) (paths1 paths2 : list string),
    getAllPathsRecursive data currentPath (paths1 ++ paths2)
    = paths1 ++ getAllPathsRecursive data currentPath paths2.
Proof.
  induction data as [| | | |m IH|l IH] using value_tree_ind;
    intros currentPath paths1 paths2; try done.
  - simpl. rewrite !map_fold_foldr.
    assert (Forall (fun kx => m !! kx.1 = Some kx.2) (map_to_list m)) as Hin.
    { apply Forall_forall. intros [key x]. apply elem_of_map_to_list. }
    induction Hin as [|[key x] entries Hx _ IHentries]; [done |].
    simpl in *. by rewrite IHentries, <- app_assoc, (IH key x Hx).
  - simpl. generalize O. revert paths1 paths2.
    induction IH as [|x rest Hx _ IHrest]; intros paths1 paths2 i; [done |].
    by rewrite <- app_assoc, Hx, IHrest.
Qed.

(** What the function appends for a map, entry by entry. *)
Lemma getAllPathsRecursive_entries (currentPath : string)
    (entries : list (string * value)) (paths : list string) :
  foldr (uncurry (fun key val paths =>
           getAllPathsRecursive val (keyPath currentPath key)
             (paths ++ [keyPath currentPath key]))) paths entries
  ≡ₚ paths ++ (entries ≫= fun kv =>
                 getAllPathsRecursive kv.2 (keyPath currentPath kv.1)
                   [keyPath currentPath kv.1]).
Proof.
  induction entries as [|[key x] entries IH]; simpl.
  - by rewrite app_nil_r.
  - rewrite getAllPathsRecursive_frame, IH.
    rewrite <- !app_assoc. f_equiv. apply Permutation_app_comm.
Qed.

Lemma getAllPathsEntries_app (currentPath : string)
    (entries1 entries2 : list (string * value)) (paths paths' paths'' : list string) :
  getAllPathsEntries currentPath entries1 paths paths' ->
  getAllPathsEntries currentPath entries2 paths' paths'' ->
  getAllPathsEntries currentPath (entries1 ++ entries2) paths paths''.
Proof.
  revert paths. induction entries1 as [|[key x] entries1 IH]; intros paths H1 H2.
  - by inversion H1; subst.
  - inversion H1; subst. simpl. econstructor; [eassumption |]. by apply IH.
Qed.

(** The function is a run: the one that ranges over each map in the
    order of [map_fold]. *)
Lemma getAllPathsRecursive_run (data : value) :
  forall (currentPath : string) (paths : list string),
    getAllPathsRun data currentPath paths
      (getAllPathsRecursive data currentPath paths).
Proof.
  induction data as [| | | |m IH|l IH] using value_tree_ind;
    intros currentPath paths; try (by constructor).
  - apply (getAllPathsRun_map _ _ _ (reverse (map_to_list m))).
    { by rewrite reverse_Permutation. }
    simpl. rewrite map_fold_foldr.
    assert (Forall (fun kx => m !! kx.1 = Some kx.2) (map_to_list m)) as Hin.
    { apply Forall_forall. intros [key x]. apply elem_of_map_to_list. }
    induction Hin as [|[key x] entries Hx _ IHentries]; [constructor |].
    rewrite reverse_cons. simpl in *.
    eapply getAllPathsEntries_app; [exact IHentries |].
    econstructor; [apply (IH key x Hx) | constructor].
  - constructor. simpl. generalize O. revert paths.
    induction IH as [|x rest Hx _ IHrest]; intros paths i; [constructor |].
    econstructor; [apply Hx | apply IHrest].
Qed.

Lemma getAllPathsRecursive_from (data : value) (currentPath : string)
    (paths : list string) :
  getAllPathsRecursive data currentPath paths
  = paths ++ getAllPathsRecursive data currentPath [].
Proof.
  by rewrite <- (app_nil_r paths) at 1; rewrite getAllPathsRecursive_frame.
Qed.

(** Whatever the orders taken, a run appends the paths the function
    appends, each as many times. *)
Lemma getAllPathsRun_Permutation (data : value) :
  forall (currentPath : string) (paths paths' : list string),
    getAllPathsRun data currentPath paths paths' ->
    paths' ≡ₚ paths ++ getAllPathsRecursive data currentPath [].
Proof.
  induction data as [| | | |m IH|l IH] using value_tree_ind;
    intros currentPath paths paths' Hrun; inversion Hrun; subst;
    try discriminate; try (by rewrite app_nil_r).
  - match goal with
    | Hperm : ?entries ≡ₚ map_to_list m, Hloop : getAllPathsEntries _ _ _ _ |- _ =>
        rename Hperm into Hentries; rename entries into es; rename Hloop into Hes
    end.
    simpl. rewrite map_fold_foldr.
    rewrite (getAllPathsRecursive_entries currentPath (map_to_list m) []).
    simpl. rewrite <- Hentries.
    assert (Forall (fun kx => m !! kx.1 = Some kx.2) es) as Hin.
    { apply Forall_forall. intros [key x] Hx. apply elem_of_map_to_list.
      by rewrite <- Hentries. }
    clear Hentries Hrun. revert paths Hes.
    induction Hin as [|[key x] es Hx _ IHes]; intros paths Hes;
      inversion Hes; subst; simpl.
    { by rewrite app_nil_r. }
    match goal with
    | Hx' : getAllPathsRun x _ _ ?p, Hrest : getAllPathsEntries _ es ?p _ |- _ =>
        apply (IH key x Hx) in Hx'; apply IHes in Hrest; rewrite Hrest, Hx'
    end.
    rewrite <- !app_assoc. simpl.
    by rewrite (getAllPathsRecursive_from x _ [_]).
  - match goal with
    | Hloop : getAllPathsElements _ _ _ _ _ |- _ => rename Hloop into Hes
    end.
    clear Hrun. simpl.
    match goal with
    | |- _ ≡ₚ _ ++ ?loop l O [] =>
        assert (forall rest i paths, loop rest i paths = paths ++ loop rest i [])
          as Hfrom
    end.
    { induction rest as [|x rest IHrest]; intros i paths0; simpl;
        [by rewrite app_nil_r |].
      rewrite IHrest, (IHrest _ (getAllPathsRecursive _ _ [_])).
      rewrite (getAllPathsRecursive_from x _ (_ ++ _)),
        (getAllPathsRecursive_from x _ [_]).
      by rewrite <- !app_assoc. }
    revert Hes. generalize O. revert paths.
    induction IH as [|x rest Hx _ IHrest]; intros paths i Hes;
      inversion Hes; subst.
    { by rewrite app_nil_r. }
    match goal with
    | Hx' : getAllPathsRun x _ _ ?p, Hrest : getAllPathsElements _ rest _ ?p _ |- _ =>
        apply Hx in Hx'; apply IHrest in Hrest; rewrite Hrest, Hx'
    end.
    simpl. rewrite (Hfrom rest (S i) (getAllPathsRecursive _ _ _)).
    rewrite (getAllPathsRecursive_from x _ [_]).
    by rewrite <- !app_assoc.
Qed.

Section FinderRunProperties.
Context {lib : Library}.

(** The finder appends to the paths it is given and returns no error. *)
Lemma findPathsRecursive_appends (data : value) (options : option FindOptions) :
  forall (currentPath : string) (paths : list string),
    exists found,
      findPathsRecursive data currentPath options paths = (paths ++ found, None)
      /\ findPathsRecursive data currentPath options [] = (found, None).
Proof.
  induction data as [| | | |m IH|l IH] using value_tree_ind;
    intros currentPath paths;
    try (exists []; by simpl; rewrite app_nil_r).
  - simpl. rewrite !map_fold_foldr.
    assert (Forall (fun kx => m !! kx.1 = Some kx.2) (map_to_list m)) as Hin.
    { apply Forall_forall. intros [key x]. apply elem_of_map_to_list. }
    induction Hin as [|[key x] entries Hx _ IHentries];
      [exists []; by simpl; rewrite app_nil_r |].
    simpl in *. destruct IHentries as (A & -> & ->).
    set (newPath := keyPath currentPath key).
    destruct (IH key x Hx newPath
                (if matchesOptions x key options then A ++ [newPath] else A))
      as (B & HB & HB0).
    destruct (IH key x Hx newPath
                (if matchesOptions x key options
                 then (paths ++ A) ++ [newPath] else paths ++ A))
      as (B' & HB' & HB0').
    assert (B' = B) as -> by congruence.
    exists ((if matchesOptions x key options then A ++ [newPath] else A) ++ B).
    split; [| done]. rewrite HB'. f_equal.
    destruct (matchesOptions x key options); by rewrite <- !app_assoc.
  - simpl.
    match goal with
    | |- exists found, ?loop l O paths = _ /\ _ =>
        assert (forall i paths,
                   exists found, loop l i paths = (paths ++ found, None)
                                 /\ loop l i [] = (found, None)) as Hloop;
          [| apply Hloop]
    end.
    induction IH as [|x rest Hx _ IHrest]; intros i paths0;
      [exists []; by simpl; rewrite app_nil_r |].
    set (newPath := indexPath currentPath i).
    destruct (Hx newPath
                (if matchesOptions x "" options then [] ++ [newPath] else []))
      as (B & HB & HB0).
    destruct (Hx newPath
                (if matchesOptions x "" options
                 then paths0 ++ [newPath] else paths0))
      as (B' & HB' & HB0').
    assert (B' = B) as -> by congruence.
    fold newPath. rewrite HB, HB'.
    destruct (IHrest (S i) ((if matchesOptions x "" options
                             then [] ++ [newPath] else []) ++ B))
      as (C & HC & HC0).
    destruct (IHrest (S i) ((if matchesOptions x "" options
                             then paths0 ++ [newPath] else paths0) ++ B))
      as (C' & HC' & HC0').
    assert (C' = C) as -> by congruence.
    exists (((if matchesOptions x "" options then [] ++ [newPath] else []) ++ B) ++ C).
    split; [| exact HC]. rewrite HC'. f_equal.
    destruct (matchesOptions x "" options); by rewrite <- !app_assoc.
Qed.

Lemma findPathsRecursive_from (data : value) (options : option FindOptions)
    (currentPath : string) (paths : list string) :
  findPathsRecursive data currentPath options paths
  = (paths ++ (findPathsRecursive data currentPath options []).1, None).
Proof.
  destruct (findPathsRecursive_appends data options currentPath paths)
    as (found & -> & ->). done.
Qed.

(** What the function appends for a map, entry by entry. *)
Lemma findPathsRecursive_entries (currentPath : string)
    (options : option FindOptions) (entries : list (string * value))
    (paths : list string) :
  let r :=
    foldr (uncurry (fun key val acc =>
             match acc with
             | (paths, Some err) => (paths, Some err)
             | (paths, None) =>
                 findPathsRecursive val (keyPath currentPath key) options
                   (if matchesOptions val key options
                    then paths ++ [keyPath currentPath key] else paths)
             end)) (paths, None) entries in
  r.2 = None
  /\ r.1 ≡ₚ paths ++ (entries ≫= fun kv =>
               (findPathsRecursive kv.2 (keyPath currentPath kv.1) options
                  (if matchesOptions kv.2 kv.1 options
                   then [keyPath currentPath kv.1] else [])).1).
Proof.
  induction entries as [|[key x] entries IH]; simpl.
  - by rewrite app_nil_r.
  - simpl in IH. destruct (foldr _ (paths, None) entries) as [found err].
    simpl in IH. destruct IH as [-> Hfound].
    destruct (matchesOptions x key options).
    + rewrite (findPathsRecursive_from x options _ (found ++ [_])),
        (findPathsRecursive_from x options _ [_]).
      simpl. split; [done |]. rewrite Hfound, <- !app_assoc. f_equiv.
      rewrite (Permutation_app_comm (_ ≫= _)). by rewrite <- app_assoc.
    + rewrite (findPathsRecursive_from x options _ found).
      simpl. split; [done |]. rewrite Hfound, <- !app_assoc. f_equiv.
      apply Permutation_app_comm.
Qed.

Lemma findPathsEntries_app (currentPath : string) (options : option FindOptions)
    (entries1 entries2 : list (string * value)) (paths paths' : list string)
    (r : list string * option error) :
  findPathsEntries currentPath options entries1 paths (paths', None) ->
  findPathsEntries currentPath options entries2 paths' r ->
  findPathsEntries currentPath options (entries1 ++ entries2) paths r.
Proof.
  revert paths. induction entries1 as [|[key x] entries1 IH]; intros paths H1 H2.
  - by inversion H1; subst.
  - inversion H1; subst. simpl.
    eapply findPathsEntries_next; [eassumption |]. by apply IH.
Qed.

(** The function is a run: the one that ranges over each map in the
    order of [map_fold]. *)
Lemma findPathsRecursive_run (data : value) (options : option FindOptions) :
  forall (currentPath : string) (paths : list string),
    findPathsRun data currentPath options paths
      (findPathsRecursive data currentPath options paths).
Proof.
  induction data as [| | | |m IH|l IH] using value_tree_ind;
    intros currentPath paths; try (by constructor).
  - apply (findPathsRun_map _ _ _ _ (reverse (map_to_list m))).
    { by rewrite reverse_Permutation. }
    simpl. rewrite map_fold_foldr.
    assert (Forall (fun kx => m !! kx.1 = Some kx.2) (map_to_list m)) as Hin.
    { apply Forall_forall. intros [key x]. apply elem_of_map_to_list. }
    induction Hin as [|[key x] entries Hx _ IHentries]; [constructor |].
    rewrite reverse_cons. simpl in *.
    pose proof (findPathsRecursive_entries currentPath options entries paths)
      as [Herr _].
    simpl in Herr. destruct (foldr _ (paths, None) entries) as [found err].
    simpl in Herr. subst err.
    eapply findPathsEntries_app; [exact IHentries |].
    rewrite findPathsRecursive_from.
    eapply findPathsEntries_next; [| constructor].
    rewrite <- findPathsRecursive_from. apply (IH key x Hx).
  - constructor. simpl. generalize O. revert paths.
    induction IH as [|x rest Hx _ IHrest]; intros paths i; [constructor |].
    rewrite (findPathsRecursive_from x).
    eapply findPathsElements_next; [| apply IHrest].
    rewrite <- findPathsRecursive_from. apply Hx.
Qed.

(** Whatever the orders taken, a run returns no error and appends the
    paths the function appends, each as many times. *)
Lemma findPathsRun_Permutation (data : value) (options : option FindOptions) :
  forall (currentPath : string) (paths : list string)
         (r : list string * option error),
    findPathsRun data currentPath options paths r ->
    r.2 = None
    /\ r.1 ≡ₚ paths ++ (findPathsRecursive data currentPath options []).1.
Proof.
  induction data as [| | | |m IH|l IH] using value_tree_ind;
    intros currentPath paths r Hrun; inversion Hrun; subst;
    try discriminate; try (by simpl; rewrite app_nil_r).
  - match goal with
    | Hperm : ?entries ≡ₚ map_to_list m, Hloop : findPathsEntries _ _ _ _ _ |- _ =>
        rename Hperm into Hentries; rename entries into es; rename Hloop into Hes
    end.
    simpl. rewrite map_fold_foldr.
    pose proof (findPathsRecursive_entries currentPath options (map_to_list m) [])
      as [_ Hfun].
    simpl in Hfun. rewrite Hfun. clear Hfun. rewrite <- Hentries.
    assert (Forall (fun kx => m !! kx.1 = Some kx.2) es) as Hin.
    { apply Forall_forall. intros [key x] Hx. apply elem_of_map_to_list.
      by rewrite <- Hentries. }
    clear Hentries Hrun. revert paths Hes.
    induction Hin as [|[key x] es Hx _ IHes]; intros paths Hes;
      inversion Hes; subst; simpl.
    { by rewrite app_nil_r. }
    { match goal with
      | Hx' : findPathsRun x _ _ _ _ |- _ =>
          by apply (IH key x Hx) in Hx' as [? _]
      end. }
    match goal with
    | Hx' : findPathsRun x _ _ _ (?p, None),
      Hrest : findPathsEntries _ _ es ?p _ |- _ =>
        apply (IH key x Hx) in Hx' as [_ Hhere];
        apply IHes in Hrest as [Herr Hafter]
    end.
    split; [done |]. simpl in *. rewrite Hafter, Hhere.
    destruct (matchesOptions x key options).
    + rewrite (findPathsRecursive_from x options _ [_]). simpl.
      by rewrite <- !app_assoc.
    + by rewrite <- !app_assoc.
  - match goal with
    | Hloop : findPathsElements _ _ _ _ _ _ |- _ => rename Hloop into Hes
    end.
    clear Hrun. simpl.
    match goal with
    | |- _ /\ _ ≡ₚ _ ++ (?loop l O []).1 =>
        assert (forall rest i paths,
                   loop rest i paths = (paths ++ (loop rest i []).1, None))
          as Hfrom
    end.
    { induction rest as [|x rest IHrest]; intros i paths0;
        [by simpl; rewrite app_nil_r |].
      destruct (matchesOptions x "" options) eqn:Hmatch.
      - rewrite (findPathsRecursive_from x options _ (paths0 ++ [_])),
          (findPathsRecursive_from x options _ ([] ++ [_])).
        rewrite IHrest, (IHrest _ (([] ++ _) ++ _)). simpl.
        by rewrite <- !app_assoc.
      - rewrite (findPathsRecursive_from x options _ paths0),
          (findPathsRecursive_from x options _ []).
        rewrite IHrest, (IHrest _ ([] ++ _)). simpl.
        by rewrite <- !app_assoc. }
    revert Hes. generalize O. revert paths r.
    induction IH as [|x rest Hx _ IHrest]; intros paths r i Hes;
      inversion Hes; subst.
    { by simpl; rewrite app_nil_r. }
    { match goal with
      | Hx' : findPathsRun x _ _ _ _ |- _ => by apply Hx in Hx' as [? _]
      end. }
    match goal with
    | Hx' : findPathsRun x _ _ _ (?p, None),
      Hrest : findPathsElements _ _ rest _ ?p _ |- _ =>
        apply Hx in Hx' as [_ Hhere]; apply IHrest in Hrest as [Herr Hafter]
    end.
    split; [done |]. rewrite Hafter. simpl in Hhere. rewrite Hhere.
    destruct (matchesOptions x "" options) eqn:Hmatch.
    + rewrite (findPathsRecursive_from x options _ ([] ++ [_])).
      rewrite (Hfrom rest (S i) (([] ++ _) ++ _)). simpl.
      by rewrite <- !app_assoc.
    + rewrite (findPathsRecursive_from x options _ []).
      rewrite (Hfrom rest (S i) ([] ++ _)). simpl.
      by rewrite <- !app_assoc.
Qed.

End FinderRunProperties.

(** X22. [GetAllPaths] under any order of the maps.  What the function
    [GetAllPaths] returns is what one run returns; and whatever order
    each [range] over a map takes, a run returns the same paths, each as
    many times: two runs differ by the order of their paths only. *)
Theorem GetAllPaths_any_order (data : value) :
  GetAllPathsRun data (GetAllPaths data)
  /\ (forall paths, GetAllPathsRun data paths -> paths ≡ₚ GetAllPaths data)
  /\ (forall paths paths',
        GetAllPathsRun data paths -> GetAllPathsRun data paths' ->
        paths ≡ₚ paths').
Proof.
  assert (forall paths, GetAllPathsRun data paths -> paths ≡ₚ GetAllPaths data)
    as Hrun.
  { intros paths Hpaths. by apply getAllPathsRun_Permutation in Hpaths. }
  split; [apply getAllPathsRecursive_run |]. split; [exact Hrun |].
  intros paths paths' Hpaths Hpaths'.
  by rewrite (Hrun _ Hpaths), (Hrun _ Hpaths').
Qed.

Lemma GetAllPaths_any_order_witness :
  ["b"; "b[0]"; "a"]
  ≡ₚ GetAllPaths (VMap (<[ "a" := VNil ]> {[ "b" := VSlice [VNil] ]})).
Proof.
  apply (proj1 (proj2 (GetAllPaths_any_order _))).
  apply (getAllPathsRun_map _ _ _ [("b", VSlice [VNil]); ("a", VNil)]).
  - vm_compute. apply perm_swap.
  - repeat (econstructor; try reflexivity).
Defined.

(** X23. [FindPaths] under any order of the maps.  What the function
    [FindPaths] returns is what one run returns; whatever order each
    [range] over a map takes, a run returns no error and the same paths,
    each as many times; with no filter set they are the paths of any run
    of [GetAllPaths], and with any options they are among them. *)
Theorem FindPaths_any_order {lib : Library} (data : value)
    (options : option FindOptions) :
  FindPathsRun data options (FindPaths data options)
  /\ (forall r, FindPathsRun data options r ->
                r.2 = None /\ r.1 ≡ₚ (FindPaths data options).1)
  /\ (forall r paths,
        FindPathsRun data (Some noOptions) r -> GetAllPathsRun data paths ->
        r.1 ≡ₚ paths)
  /\ (forall r paths,
        FindPathsRun data options r -> GetAllPathsRun data paths ->
        r.1 ⊆+ paths).
Proof.
  assert (forall options r, FindPathsRun data options r ->
            r.2 = None /\ r.1 ≡ₚ (FindPaths data options).1) as Hrun.
  { intros options' r Hr. by apply findPathsRun_Permutation in Hr. }
  split; [apply findPathsRecursive_run |]. split; [apply Hrun |]. split.
  - intros r paths [_ Hr]%Hrun Hpaths%getAllPathsRun_Permutation.
    rewrite Hr, Hpaths. unfold FindPaths.
    by rewrite findPathsRecursive_noOptions.
  - intros r paths [_ Hr]%Hrun Hpaths%getAllPathsRun_Permutation.
    rewrite Hr, Hpaths. apply sublist_submseteq.
    by apply findPathsRecursive_sublist.
Qed.

Lemma FindPaths_any_order_witness :
  (["b"; "b[0]"; "a"], @None error).2 = None
  /\ (["b"; "b[0]"; "a"], @None error).1
     ≡ₚ (@FindPaths literalLibrary
           (VMap (<[ "a" := VNil ]> {[ "b" := VSlice [VNil] ]})) None).1.
Proof.
  apply (proj1 (proj2 (@FindPaths_any_order literalLibrary _ None))).
  apply (findPathsRun_map _ _ _ _ [("b", VSlice [VNil]); ("a", VNil)]).
  - vm_compute. apply perm_swap.
  - eapply findPathsEntries_next;
      [apply findPathsRun_slice;
       eapply findPathsElements_next; [by apply findPathsRun_other | constructor] |].
    eapply findPathsEntries_next; [by apply findPathsRun_other | constructor].
Defined.
